(** * Update acquisition and typed dispatch of the MAX Bot API client

    A shallow embedding of the decoder, the long-poll fetch loop, the
    webhook handler (api.go) and the low-level debug send (debugs.go) of
    package [maxbot], followed by the properties proved about them.  The
    functions around this pipeline are embedded as well: the message
    functions (messages.go), the queries of the chat functions, the
    constructors and the inline-keyboard builder (api.go), the public
    debug send (debugs.go).

    Conventions.
    - A Go result pair [(v, err)] whose two halves exclude each other is a
      sum [error + T] ([inl err] / [inr v]); where the code can return
      [(nil, nil)] the pair is kept as two options.
    - Effects (requests, log lines, backoff sleeps, channel sends) are
      recorded in an event trace; what the environment answers (transport
      responses, cancellation) is an explicit input of each function.
    - [[]byte] payloads and the type-directed behaviour of [encoding/json]
      on the [schemes] structures are an interface ([JSON]); every general
      theorem holds for any implementation of it, and a small tree
      implementation ([Wire]) is used to run the code on concrete inputs. *)

From Stdlib Require Import ZArith List String Bool Lia DecimalString.
From Stdlib Require Import Permutation.
From Stdlib Require DecimalZ DecimalPos.
Import ListNotations.
Local Open Scope string_scope.
Local Open Scope Z_scope.
Local Open Scope list_scope.

Set Implicit Arguments.

(* ===================================================================== *)
(** ** Go runtime: integers, errors                                        *)
(* ===================================================================== *)

(** Two's-complement wrap-around of a 64-bit signed integer. *)
Definition wrap64 (z : Z) : Z := (z + 2 ^ 63) mod 2 ^ 64 - 2 ^ 63.

(** [strconv.Itoa] / [strconv.FormatInt(_, 10)] / the [%d] verb. *)
Definition Itoa (z : Z) : string := NilZero.string_of_int (Z.to_int z).

(** [time.Second], in nanoseconds ([time.Duration] is an [int64]). *)
Definition Second : Z := 1000000000.

(** The two sentinel errors of package [context]. *)
Inductive Sentinel : Type := context_Canceled | context_DeadlineExceeded.

Definition Sentinel_eqb (a b : Sentinel) : bool :=
  match a, b with
  | context_Canceled, context_Canceled => true
  | context_DeadlineExceeded, context_DeadlineExceeded => true
  | _, _ => false
  end.

(** Go [error] values as the code builds and inspects them: a chain of
    [fmt.Errorf("...: %w", err)] wrappers over a leaf.  The leaves are the
    sentinels of [context], the transport's [TimeoutError] (declared with
    the transport, outside the sources at hand; only its classification by
    [errors.As] matters), the API error envelope, and any other error.  A
    nil [error] is [None : option error]. *)
Inductive error : Type :=
| Sentinel_error (s : Sentinel)                  (* context.Canceled, context.DeadlineExceeded *)
| TimeoutError (reason : string)                 (* *maxbot.TimeoutError *)
| schemes_Error (Code : string) (Message : string) (* *schemes.Error *)
| Errorf (msg : string)                          (* fmt.Errorf without %w, errors.New, foreign leaves *)
| Errorf_w (msg : string) (err : error).         (* fmt.Errorf(msg + ": %w", err) *)

(** [errors.Is(err, target)] for a sentinel target: walks the Unwrap chain. *)
Fixpoint errors_Is (err : error) (target : Sentinel) : bool :=
  match err with
  | Sentinel_error s => Sentinel_eqb s target
  | Errorf_w _ inner => errors_Is inner target
  | _ => false
  end.

(** [var te *TimeoutError; errors.As(err, &te)]. *)
Fixpoint errors_As_TimeoutError (err : error) : bool :=
  match err with
  | TimeoutError _ => true
  | Errorf_w _ inner => errors_As_TimeoutError inner
  | _ => false
  end.

(** [err.Error()]. *)
Fixpoint Error_string (err : error) : string :=
  match err with
  | Sentinel_error context_Canceled => "context canceled"
  | Sentinel_error context_DeadlineExceeded => "context deadline exceeded"
  | TimeoutError reason => reason
  | schemes_Error code message => code ++ ": " ++ message
  | Errorf msg => msg
  | Errorf_w msg inner => msg ++ ": " ++ Error_string inner
  end.

(** An error that [getUpdatesWithRetry] retries: neither a cancellation
    nor an expired deadline. *)
Definition transient (err : error) : Prop :=
  errors_Is err context_Canceled = false /\ errors_Is err context_DeadlineExceeded = false.

(** Sequencing of fallible steps: [if err != nil { return nil, wrap(err) }]. *)
Definition bindE {A B : Type} (r : error + A) (wrap : error -> error)
    (k : A -> error + B) : error + B :=
  match r with
  | inl err => inl (wrap err)
  | inr v => k v
  end.

Notation "x <- r 'orelse' w ;; k" := (bindE r w (fun x => k))
  (at level 100, r at next level, w at next level, right associativity).

(* ===================================================================== *)
(** ** Package schemes: the structures api.go reads and writes             *)
(* ===================================================================== *)

(** Modelled from the spec: the discriminator constants of package
    [schemes] (the package is not part of the sources at hand).  They name
    the ten update variants and nine attachment variants of the data
    model; no general theorem below depends on their values. *)
Module schemes.
Definition TypeMessageCallback := "message_callback".
Definition TypeMessageCreated := "message_created".
Definition TypeMessageRemoved := "message_removed".
Definition TypeMessageEdited := "message_edited".
Definition TypeBotAdded := "bot_added".
Definition TypeBotRemoved := "bot_removed".
Definition TypeUserAdded := "user_added".
Definition TypeUserRemoved := "user_removed".
Definition TypeBotStarted := "bot_started".
Definition TypeChatTitleChanged := "chat_title_changed".

Definition AttachmentAudio := "audio".
Definition AttachmentContact := "contact".
Definition AttachmentFile := "file".
Definition AttachmentImage := "image".
Definition AttachmentKeyboard := "inline_keyboard".
Definition AttachmentLocation := "location".
Definition AttachmentShare := "share".
Definition AttachmentSticker := "sticker".
Definition AttachmentVideo := "video".
End schemes.

(** Modelled from the spec: [schemes.Update], the envelope shared by all
    update variants (discriminator and raw-debug payload). *)
Record Update : Type := { UpdateType : string; DebugRaw : string }.

(** Modelled from the spec: the getter of the discriminator. *)
Definition GetUpdateType (u : Update) : string := UpdateType u.

(** Modelled from the spec: [schemes.Attachment], the base attachment. *)
Record Attachment : Type := { Type_ : string }.

(** Modelled from the spec: the getter of the discriminator. *)
Definition GetAttachmentType (a : Attachment) : string := Type_ a.

Section Schemes.
(** [bytes]: the content of a [[]byte] / [json.RawMessage].
    [fields]: the variant-specific fields of a [schemes] structure that
    api.go never touches. *)
Variables bytes fields : Type.

(** [schemes.AttachmentInterface]: the dynamic type is the constructor. *)
Inductive AttachmentInterface : Type :=
| BaseAttachment (a : Attachment)                       (* *schemes.Attachment *)
| AudioAttachment (a : Attachment) (f : fields)
| ContactAttachment (a : Attachment) (f : fields)
| FileAttachment (a : Attachment) (f : fields)
| PhotoAttachment (a : Attachment) (f : fields)
| InlineKeyboardAttachment (a : Attachment) (f : fields)
| LocationAttachment (a : Attachment) (f : fields)
| ShareAttachment (a : Attachment) (f : fields)
| StickerAttachment (a : Attachment) (f : fields)
| VideoAttachment (a : Attachment) (f : fields).

(** Modelled from the spec: [schemes.MessageBody].  [RawAttachments] is
    a slice that may be nil ([None]) or present, possibly empty
    ([Some []]); [Attachments] is the resolved list. *)
Record MessageBody : Type := {
  Attachments : list AttachmentInterface;
  RawAttachments : option (list bytes);
  BodyFields : fields }.

(** Modelled from the spec: [schemes.LinkedMessage] (a quote or reply). *)
Record LinkedMessage : Type := {
  LinkedMessage_Message : MessageBody;
  LinkFields : fields }.

(** Modelled from the spec: [schemes.Message]; [Link] is a pointer. *)
Record Message : Type := {
  Body : MessageBody;
  Link : option LinkedMessage;
  MessageFields : fields }.

(** [schemes.UpdateInterface]: the dynamic type is the constructor. *)
Inductive UpdateInterface : Type :=
| MessageCallbackUpdate (u : Update) (f : fields)
| MessageCreatedUpdate (u : Update) (m : Message)
| MessageRemovedUpdate (u : Update) (f : fields)
| MessageEditedUpdate (u : Update) (m : Message)
| BotAddedToChatUpdate (u : Update) (f : fields)
| BotRemovedFromChatUpdate (u : Update) (f : fields)
| UserAddedToChatUpdate (u : Update) (f : fields)
| UserRemovedFromChatUpdate (u : Update) (f : fields)
| BotStartedUpdate (u : Update) (f : fields)
| ChatTitleChangedUpdate (u : Update) (f : fields).

(** Modelled from the spec: [schemes.UpdateList], the page of the
    update-fetch endpoint; [Marker] is a [*int64]. *)
Record UpdateList : Type := {
  Updates : list bytes;
  Marker : option Z }.

(** A response body as the code observes it: what [io.ReadAll] (or a
    streaming decoder) gets out of it and what [Close] returns. *)
Record ReadCloser : Type := {
  ReadAll : error + bytes;
  Close : option error }.
End Schemes.

Arguments BaseAttachment {fields} a.
Arguments Build_MessageBody {bytes fields} _ _ _.
Arguments Build_UpdateList {bytes} _ _.
Arguments Build_ReadCloser {bytes} _ _.

(** The zero value of the structures ([new(T)], [&T{}]). *)
Definition zero_Attachment : Attachment := {| Type_ := "" |}.

Definition zero_Message {bytes fields : Type} (z : fields) : Message bytes fields :=
  {| Body := {| Attachments := []; RawAttachments := None; BodyFields := z |};
     Link := None;
     MessageFields := z |}.

(** [&schemes.UpdateList{}]. *)
Definition empty_UpdateList {bytes : Type} : UpdateList bytes :=
  {| Updates := []; Marker := None |}.

(** What api.go uses of [encoding/json] and of the byte/string
    conversions, on the structures above.  [Unmarshal_*] decode into a
    fresh zero value; [Unmarshal_into_*] decode into the value a
    constructor closure has just built. *)
Class JSON (bytes fields : Type) : Type := {
  string_of_bytes : bytes -> string;                          (* string(data) *)
  zero_fields : fields;
  Unmarshal_Update : bytes -> error + Update;
  Unmarshal_into_Update :
    bytes -> UpdateInterface bytes fields -> error + UpdateInterface bytes fields;
  Unmarshal_Attachment : bytes -> error + Attachment;
  Unmarshal_into_Attachment :
    bytes -> AttachmentInterface fields -> error + AttachmentInterface fields;
  Unmarshal_UpdateList : bytes -> error + UpdateList bytes;
  Decode_Error : bytes -> error + (string * string)           (* Code, Message of schemes.Error *)
}.

(* ===================================================================== *)
(** ** api.go: the variant decoder                                         *)
(* ===================================================================== *)

(** [maxbot.Api], as far as the pipeline reads it.  Durations are in
    nanoseconds. *)
Record Api : Type := { timeout : Z; pause : Z; debug : bool }.

Section Decoder.
Context {bytes fields : Type} `{J : JSON bytes fields}.

Local Abbreviation UpdateI := (UpdateInterface bytes fields).
Local Abbreviation AttachmentI := (AttachmentInterface fields).

Definition envelope (debugRaw : string) : Update :=
  {| UpdateType := ""; DebugRaw := debugRaw |}.

(** [getUpdateType]: the constructor closure of a discriminator, or nil. *)
Definition getUpdateType (updateType : string) : option (string -> UpdateI) :=
  if (updateType =? schemes.TypeMessageCallback)%string then
    Some (fun debugRaw => MessageCallbackUpdate bytes (envelope debugRaw) zero_fields)
  else if (updateType =? schemes.TypeMessageCreated)%string then
    Some (fun debugRaw => MessageCreatedUpdate (envelope debugRaw) (zero_Message zero_fields))
  else if (updateType =? schemes.TypeMessageRemoved)%string then
    Some (fun debugRaw => MessageRemovedUpdate bytes (envelope debugRaw) zero_fields)
  else if (updateType =? schemes.TypeMessageEdited)%string then
    Some (fun debugRaw => MessageEditedUpdate (envelope debugRaw) (zero_Message zero_fields))
  else if (updateType =? schemes.TypeBotAdded)%string then
    Some (fun debugRaw => BotAddedToChatUpdate bytes (envelope debugRaw) zero_fields)
  else if (updateType =? schemes.TypeBotRemoved)%string then
    Some (fun debugRaw => BotRemovedFromChatUpdate bytes (envelope debugRaw) zero_fields)
  else if (updateType =? schemes.TypeUserAdded)%string then
    Some (fun debugRaw => UserAddedToChatUpdate bytes (envelope debugRaw) zero_fields)
  else if (updateType =? schemes.TypeUserRemoved)%string then
    Some (fun debugRaw => UserRemovedFromChatUpdate bytes (envelope debugRaw) zero_fields)
  else if (updateType =? schemes.TypeBotStarted)%string then
    Some (fun debugRaw => BotStartedUpdate bytes (envelope debugRaw) zero_fields)
  else if (updateType =? schemes.TypeChatTitleChanged)%string then
    Some (fun debugRaw => ChatTitleChangedUpdate bytes (envelope debugRaw) zero_fields)
  else None.

(** [getAttachmentType]: the constructor closure of a discriminator, or nil. *)
Definition getAttachmentType (attachmentType : string) : option (unit -> AttachmentI) :=
  if (attachmentType =? schemes.AttachmentAudio)%string then
    Some (fun _ => AudioAttachment zero_Attachment zero_fields)
  else if (attachmentType =? schemes.AttachmentContact)%string then
    Some (fun _ => ContactAttachment zero_Attachment zero_fields)
  else if (attachmentType =? schemes.AttachmentFile)%string then
    Some (fun _ => FileAttachment zero_Attachment zero_fields)
  else if (attachmentType =? schemes.AttachmentImage)%string then
    Some (fun _ => PhotoAttachment zero_Attachment zero_fields)
  else if (attachmentType =? schemes.AttachmentKeyboard)%string then
    Some (fun _ => InlineKeyboardAttachment zero_Attachment zero_fields)
  else if (attachmentType =? schemes.AttachmentLocation)%string then
    Some (fun _ => LocationAttachment zero_Attachment zero_fields)
  else if (attachmentType =? schemes.AttachmentShare)%string then
    Some (fun _ => ShareAttachment zero_Attachment zero_fields)
  else if (attachmentType =? schemes.AttachmentSticker)%string then
    Some (fun _ => StickerAttachment zero_Attachment zero_fields)
  else if (attachmentType =? schemes.AttachmentVideo)%string then
    Some (fun _ => VideoAttachment zero_Attachment zero_fields)
  else None.

(** [bytesToProperAttachment]. *)
Definition bytesToProperAttachment (data : bytes) : error + AttachmentI :=
  baseAttachment <- Unmarshal_Attachment data
    orelse Errorf_w "failed to unmarshal base attachment" ;;
  let attachmentType := GetAttachmentType baseAttachment in
  match getAttachmentType attachmentType with
  | None => inr (BaseAttachment baseAttachment)
  | Some constructor =>
      attachment <- Unmarshal_into_Attachment data (constructor tt)
        orelse Errorf_w ("failed to unmarshal attachment of type " ++ attachmentType) ;;
      inr attachment
  end.

(** [convertRawAttachments]: the loop over the raw list, with the
    accumulator [result] of the source. *)
Fixpoint convertRawAttachments_loop (rawAttachments : list bytes)
    (result : list AttachmentI) : error + list AttachmentI :=
  match rawAttachments with
  | [] => inr result
  | rawAttachment :: rest =>
      attachment <- bytesToProperAttachment rawAttachment
        orelse Errorf_w "failed to process attachment" ;;
      convertRawAttachments_loop rest (result ++ [attachment])
  end.

Definition convertRawAttachments (rawAttachments : list bytes)
    : error + list AttachmentI :=
  convertRawAttachments_loop rawAttachments [].

Definition set_Attachments (b : MessageBody bytes fields)
    (l : list AttachmentI) : MessageBody bytes fields :=
  {| Attachments := l;
     RawAttachments := RawAttachments b;
     BodyFields := BodyFields b |}.

(** The body shared by the two message cases of
    [processMessageAttachments] (the source repeats it verbatim for
    [*MessageCreatedUpdate] and [*MessageEditedUpdate]); the mutation
    of [u.Message] is returned as the new message. *)
Definition processMessage (m : Message bytes fields)
    : error + Message bytes fields :=
  match RawAttachments (Body m) with
  | Some raws =>
      attachments <- convertRawAttachments raws orelse (fun err => err) ;;
      inr {| Body := set_Attachments (Body m) (Attachments (Body m) ++ attachments);
             Link := Link m;
             MessageFields := MessageFields m |}
  | None =>
      match Link m with
      | Some link =>
          match RawAttachments (LinkedMessage_Message link) with
          | Some raws =>
              attachments <- convertRawAttachments raws orelse (fun err => err) ;;
              inr {| Body := Body m;
                     Link := Some
                       {| LinkedMessage_Message :=
                            set_Attachments (LinkedMessage_Message link)
                              (Attachments (LinkedMessage_Message link) ++ attachments);
                          LinkFields := LinkFields link |};
                     MessageFields := MessageFields m |}
          | None => inr m
          end
      | None => inr m
      end
  end.

(** [processMessageAttachments]: the type switch on the update. *)
Definition processMessageAttachments (update : UpdateI) : error + UpdateI :=
  match update with
  | MessageCreatedUpdate u m =>
      m' <- processMessage m orelse (fun err => err) ;;
      inr (MessageCreatedUpdate u m')
  | MessageEditedUpdate u m =>
      m' <- processMessage m orelse (fun err => err) ;;
      inr (MessageEditedUpdate u m')
  | _ => inr update
  end.

(** [bytesToProperUpdate]. *)
Definition bytesToProperUpdate (a : Api) (data : bytes) : error + UpdateI :=
  baseUpdate <- Unmarshal_Update data
    orelse Errorf_w "failed to unmarshal base update" ;;
  let debugRaw := if debug a then string_of_bytes data else "" in
  let updateType := GetUpdateType baseUpdate in
  match getUpdateType updateType with
  | None => inl (Errorf ("unknown update type: " ++ updateType))
  | Some constructor =>
      update <- Unmarshal_into_Update data (constructor debugRaw)
        orelse Errorf_w ("failed to unmarshal update of type " ++ updateType) ;;
      update' <- processMessageAttachments update
        orelse Errorf_w "failed to process message attachments" ;;
      inr update'
  end.

(** What a decode result holds: the attachment list of the message's
    body and that of its linked message. *)
Definition bodyAttachments (r : error + UpdateI) : option (list AttachmentI) :=
  match r with
  | inr (MessageCreatedUpdate _ m) | inr (MessageEditedUpdate _ m) =>
      Some (Attachments (Body m))
  | _ => None
  end.

Definition linkAttachments (r : error + UpdateI) : option (list AttachmentI) :=
  match r with
  | inr (MessageCreatedUpdate _ m) | inr (MessageEditedUpdate _ m) =>
      match Link m with
      | Some link => Some (Attachments (LinkedMessage_Message link))
      | None => None
      end
  | _ => None
  end.

(** The two message variants, the only ones whose attachments are
    resolved. *)
Definition messageUpdate (mk : Update -> Message bytes fields -> UpdateI) : Prop :=
  mk = @MessageCreatedUpdate bytes fields \/ mk = @MessageEditedUpdate bytes fields.

(** The structural decode that [bytesToProperUpdate] performs before it
    resolves attachments: both [json.Unmarshal] passes succeed and leave
    [update]. *)
Definition unmarshalsTo (a : Api) (data : bytes) (update : UpdateI) : Prop :=
  exists baseUpdate constructor,
    Unmarshal_Update data = inr baseUpdate /\
    getUpdateType (GetUpdateType baseUpdate) = Some constructor /\
    Unmarshal_into_Update data
      (constructor (if debug a then string_of_bytes data else "")) = inr update.
End Decoder.

(* ===================================================================== *)
(** ** api.go: fetching a page, with retry                                 *)
(* ===================================================================== *)

(** Package-level constants whose declarations are not part of the
    sources at hand; the functions below are parametrised over them. *)
Class Consts : Type := {
  maxRetries : nat;
  maxUpdatesLimit : Z;
  pathUpdates : string;
  pathMessages : string;
  paramLimit : string;
  paramTimeout : string;
  paramMarker : string;
  paramTypes : string;
  paramChatID : string;
  paramUserID : string }.

(** [UpdatesParams] (api.go). *)
Record UpdatesParams : Type := { Limit : Z; Timeout : Z; Marker_ : Z; Types : list string }.

Definition zero_UpdatesParams : UpdatesParams :=
  {| Limit := 0; Timeout := 0; Marker_ := 0; Types := [] |}.

(** [url.Values] as the sequence of [Set]/[Add] calls on a fresh map
    (the keys set by one function are distinct). *)
Definition Values : Type := list (string * string).

(** The calls of [log.Printf], by call site, with their arguments. *)
Inductive LogLine : Type :=
| Log_close_failed (closeErr : error)
    (* "failed to close response body: %v" *)
| Log_attempt_failed (attempt : Z) (retryWait : Z) (lastErr : error)
    (* "Attempt %d failed, retrying in %v: %v" *)
| Log_failed_to_get_updates (err : error)
    (* "failed to get updates: %v" *)
| Slog_close_failed (err : error).
    (* slog.Error("failed to close response body", "error", err) *)

Section Fetch.
Context {bytes fields : Type} `{J : JSON bytes fields} `{K : Consts}.

Local Abbreviation UpdateI := (UpdateInterface bytes fields).

(** Observable effects, in program order. *)
Inductive Event : Type :=
| Ev_request (method path : string) (values : Values) (reset : bool)
    (body : option string)                              (* a.client.request(...) *)
| Ev_log (line : LogLine)                               (* log.Printf(...) *)
| Ev_after (d : Z)                                      (* <-time.After(d) was selected *)
| Ev_send (update : UpdateI)                            (* ch <- update was selected *)
| Ev_close.                                             (* close(ch) *)

(** The query of [getUpdates].  [int(params.Timeout.Seconds())] is the
    number of whole seconds (the float64 detour is exact for the
    durations a poll uses). *)
Definition updatesValues (params : UpdatesParams) : Values :=
  (if 0 <? Limit params then [(paramLimit, Itoa (Limit params))] else []) ++
  (if 0 <? Timeout params
   then [(paramTimeout, Itoa (Z.quot (Timeout params) Second))] else []) ++
  (if 0 <? Marker_ params then [(paramMarker, Itoa (Marker_ params))] else []) ++
  map (fun t => (paramTypes, t)) (Types params).

Definition closeBody (body : ReadCloser bytes) : list Event :=
  match Close body with
  | Some closeErr => [Ev_log (Log_close_failed closeErr)]
  | None => []
  end.

(** [getUpdates].  [ctxErr] is what [ctx.Err()] returns during the
    call; [response] is what the transport answers. *)
Definition getUpdates (ctxErr : option Sentinel) (params : option UpdatesParams)
    (response : error + ReadCloser bytes)
    : (option (UpdateList bytes) * option error) * list Event :=
  let params := match params with Some p => p | None => zero_UpdatesParams end in
  let request := Ev_request "GET" pathUpdates (updatesValues params) false None in
  match response with
  | inl err =>
      if errors_As_TimeoutError err then
        ((Some empty_UpdateList, None), [request])
      else if errors_Is err context_Canceled || errors_Is err context_DeadlineExceeded then
        ((None, option_map Sentinel_error ctxErr), [request])
      else
        ((None, Some (Errorf_w "failed to get updates" err)), [request])
  | inr body =>
      match ReadAll body with
      | inl err =>
          ((None, Some (Errorf_w "failed to read response body" err)),
           request :: closeBody body)
      | inr data =>
          match Unmarshal_UpdateList data with
          | inl err =>
              ((None, Some (Errorf_w "failed to unmarshal updates" err)),
               request :: closeBody body)
          | inr result => ((Some result, None), request :: closeBody body)
          end
      end
  end.

(** What the environment does during one attempt of
    [getUpdatesWithRetry]: the transport's answer, [ctx.Err()] inside
    [getUpdates], and whether [ctx.Done()] wins the [select] of the
    backoff wait (with the value of [ctx.Err()] then). *)
Record Attempt : Type := {
  response : error + ReadCloser bytes;
  ctx_Err : option Sentinel;
  wait_Done : option Sentinel }.

(** [time.Duration(1<<uint(attempt)) * time.Second], in [int64]. *)
Definition retryWait (attempt : nat) : Z :=
  wrap64 (wrap64 (Z.shiftl 1 (Z.of_nat attempt)) * Second).

(** [fmt.Errorf("failed after %d attempts: %w", maxRetries, lastErr)];
    a nil [lastErr] is printed by [%w] as [%!w(<nil>)]. *)
Definition failedAfter (lastErr : option error) : error :=
  let msg := ("failed after " ++ Itoa (Z.of_nat maxRetries) ++ " attempts")%string in
  match lastErr with
  | Some err => Errorf_w msg err
  | None => Errorf (msg ++ ": %!w(<nil>)")%string
  end.

(** The [for attempt := 0; attempt < maxRetries; attempt++] loop of
    [getUpdatesWithRetry]; [remaining] is [maxRetries - attempt]. *)
Fixpoint retryLoop (remaining : nat) (attempt : nat) (lastErr : option error)
    (params : option UpdatesParams) (env : nat -> Attempt)
    : (option (UpdateList bytes) * option error) * list Event :=
  match remaining with
  | O => ((None, Some (failedAfter lastErr)), [])
  | S remaining' =>
      let '((result, lastErr'), tr) :=
        getUpdates (ctx_Err (env attempt)) params (response (env attempt)) in
      match lastErr' with
      | None => ((result, None), tr)
      | Some err =>
          if errors_Is err context_Canceled || errors_Is err context_DeadlineExceeded then
            ((None, Some err), tr)
          else if Z.of_nat attempt <? Z.of_nat maxRetries - 1 then
            let line := Ev_log (Log_attempt_failed (Z.of_nat attempt + 1)
                                  (retryWait attempt) err) in
            match wait_Done (env attempt) with
            | Some s => ((None, Some (Sentinel_error s)), tr ++ [line])
            | None =>
                let '(r, tr') :=
                  retryLoop remaining' (S attempt) (Some err) params env in
                (r, tr ++ [line; Ev_after (retryWait attempt)] ++ tr')
            end
          else
            let '(r, tr') :=
              retryLoop remaining' (S attempt) (Some err) params env in
            (r, tr ++ tr')
      end
  end.

(** [getUpdatesWithRetry]. *)
Definition getUpdatesWithRetry (params : option UpdatesParams) (env : nat -> Attempt)
    : (option (UpdateList bytes) * option error) * list Event :=
  let params := match params with Some p => Some p | None => Some zero_UpdatesParams end in
  retryLoop maxRetries 0 None params env.

(* =================================================================== *)
(** ** api.go: the long-poll loop                                      *)
(* =================================================================== *)

(** The inner [for _, rawUpdate := range updateList.Updates] loop.
    [budget] is the environment's answer to the [select] around the
    send: [Some n] means [ctx.Done()] is selected at the send that
    follows [n] completed ones, [None] that it never is.  The boolean
    is true when the goroutine returns from inside the loop. *)
Fixpoint sendUpdates (a : Api) (updates : list bytes) (budget : option nat)
    : list Event * bool :=
  match updates with
  | [] => ([], false)
  | rawUpdate :: rest =>
      match bytesToProperUpdate a rawUpdate with
      | inl _ => sendUpdates a rest budget                    (* continue *)
      | inr update =>
          match budget with
          | Some O => ([], true)                              (* case <-ctx.Done(): return *)
          | _ =>
              let '(tr, returned) := sendUpdates a rest (option_map Nat.pred budget) in
              (Ev_send update :: tr, returned)
          end
      end
  end.

(** Where the goroutine of [GetUpdates] stands. *)
Inductive Phase : Type :=
| Idle        (* at the outer select, waiting for the ticker *)
| Draining    (* inside the inner for, about to fetch a page *)
| Returned    (* the goroutine has returned; the channel is closed *)
| Panicked.   (* nil-pointer dereference of a nil page *)

Record Fetcher : Type := {
  phase : Phase;
  marker : Z;
  trace : list Event }.

(** What the environment does around one call of
    [getUpdatesWithRetry]: whether [ctx.Done()] wins the outer select
    (consulted only when the loop is idle), the attempts of the call,
    and the budget of the sends that follow. *)
Record Round : Type := {
  select_Done : bool;
  attempts : nat -> Attempt;
  sends : option nat }.

(** The [&UpdatesParams{...}] literal of the inner [for]. *)
Definition pollParams (a : Api) (marker : Z) : UpdatesParams :=
  {| Limit := maxUpdatesLimit; Timeout := timeout a; Marker_ := marker; Types := [] |}.

(** One iteration of the inner [for]. *)
Definition drain (a : Api) (f : Fetcher) (r : Round) : Fetcher :=
  let params := pollParams a (marker f) in
  let '((updateList, err), tr) := getUpdatesWithRetry (Some params) (attempts r) in
  match err, updateList with
  | Some err, _ =>
      {| phase := Idle; marker := marker f;
         trace := trace f ++ tr ++ [Ev_log (Log_failed_to_get_updates err)] |}
  | None, None =>
      {| phase := Panicked; marker := marker f;
         trace := trace f ++ tr ++ [Ev_close] |}
  | None, Some updateList =>
      match Updates updateList with
      | [] => {| phase := Idle; marker := marker f; trace := trace f ++ tr |}
      | _ :: _ =>
          let '(evs, returned) := sendUpdates a (Updates updateList) (sends r) in
          if returned then
            {| phase := Returned; marker := marker f;
               trace := trace f ++ tr ++ evs ++ [Ev_close] |}
          else
            {| phase := Draining;
               marker := match Marker updateList with
                         | Some m => m                     (* marker = *updateList.Marker *)
                         | None => marker f
                         end;
               trace := trace f ++ tr ++ evs |}
      end
  end.

(** One round of the goroutine: the outer select if it is idle, then
    one iteration of the inner loop. *)
Definition step (a : Api) (f : Fetcher) (r : Round) : Fetcher :=
  match phase f with
  | Idle =>
      if select_Done r then
        {| phase := Returned; marker := marker f; trace := trace f ++ [Ev_close] |}
      else drain a f r
  | Draining => drain a f r
  | Returned | Panicked => f
  end.

(** [GetUpdates]: the goroutine from [var marker int64] on, run
    against the rounds the environment offers. *)
Definition GetUpdates (a : Api) (rounds : list Round) : Fetcher :=
  fold_left (step a) rounds {| phase := Idle; marker := 0; trace := [] |}.

(** The goroutine is still running. *)
Definition live (f : Fetcher) : Prop := phase f = Idle \/ phase f = Draining.

(** In round [r], entered with cursor [cursor], nothing is cancelled and
    the fetch returns [page]. *)
Definition answers (a : Api) (cursor : Z) (r : Round) (page : UpdateList bytes) : Prop :=
  select_Done r = false /\ sends r = None /\
  exists tr, getUpdatesWithRetry (Some (pollParams a cursor)) (attempts r)
             = ((Some page, None), tr).

(** Projections of a trace: the queries of the requests, the updates
    sent into the channel, the log lines, the backoff waits. *)
Fixpoint requests (tr : list Event) : list Values :=
  match tr with
  | [] => []
  | Ev_request _ _ values _ _ :: tr' => values :: requests tr'
  | _ :: tr' => requests tr'
  end.

Fixpoint sent (tr : list Event) : list UpdateI :=
  match tr with
  | [] => []
  | Ev_send u :: tr' => u :: sent tr'
  | _ :: tr' => sent tr'
  end.

Fixpoint logged (tr : list Event) : list LogLine :=
  match tr with
  | [] => []
  | Ev_log l :: tr' => l :: logged tr'
  | _ :: tr' => logged tr'
  end.

Fixpoint waits (tr : list Event) : list Z :=
  match tr with
  | [] => []
  | Ev_after d :: tr' => d :: waits tr'
  | _ :: tr' => waits tr'
  end.
End Fetch.

(* ===================================================================== *)
(** ** api.go: the webhook handler                                         *)
(* ===================================================================== *)

(** Status codes of package [net/http]. *)
Definition StatusOK : Z := 200.
Definition StatusBadRequest : Z := 400.
Definition StatusMethodNotAllowed : Z := 405.
Definition StatusServiceUnavailable : Z := 503.

(** The line feed that [fmt.Fprintln] appends in [http.Error]. *)
Definition LF : string := String (Ascii.ascii_of_nat 10) EmptyString.

Section Webhook.
Context {bytes fields : Type} `{J : JSON bytes fields}.

Local Abbreviation UpdateI := (UpdateInterface bytes fields).

(** A Go channel as a send can observe it: its capacity, the buffered
    elements (oldest first), the number of receivers blocked on it, the
    values handed directly to such receivers, and whether it is closed.
    (A nil channel behaves, for a non-blocking send, as an open channel
    of capacity 0 without receivers.) *)
Record Chan : Type := {
  capacity : nat;
  buffer : list UpdateI;
  receivers : nat;
  handed : list UpdateI;
  closed : bool }.

Inductive TrySend : Type :=
| Sent_ (c : Chan)     (* the send case was selected *)
| WouldBlock           (* the default case was selected *)
| PanicClosed.         (* send on closed channel *)

(** [select { case c <- v: ...; default: ... }]. *)
Definition trySend (c : Chan) (v : UpdateI) : TrySend :=
  if closed c then PanicClosed
  else match receivers c with
       | S n =>
           Sent_ {| capacity := capacity c; buffer := buffer c; receivers := n;
                    handed := handed c ++ [v]; closed := false |}
       | O =>
           if (List.length (buffer c) <? capacity c)%nat then
             Sent_ {| capacity := capacity c; buffer := buffer c ++ [v]; receivers := O;
                      handed := handed c; closed := false |}
           else WouldBlock
       end.

(** The part of [*http.Request] the handler reads: the method and what
    [io.ReadAll(r.Body)] returns. *)
Record Request : Type := { Method : string; RequestBody : error + bytes }.

(** What the handler leaves behind: the response written to [w] and
    the channel, or a panic. *)
Inductive Served : Type :=
| Response (StatusCode : Z) (text : string) (updates : Chan)
| HandlerPanic.

(** [http.Error(w, msg, code)]. *)
Definition http_Error (msg : string) (code : Z) (updates : Chan) : Served :=
  Response code (msg ++ LF)%string updates.

(** The handler returned by [GetHandler(updates)], applied to a request. *)
Definition GetHandler (a : Api) (updates : Chan) (r : Request) : Served :=
  if negb (Method r =? "POST")%string then
    http_Error "Method not allowed" StatusMethodNotAllowed updates
  else
    match RequestBody r with
    | inl _ => http_Error "Failed to read request body" StatusBadRequest updates
    | inr body =>
        match bytesToProperUpdate a body with
        | inl _ => http_Error "Failed to parse update" StatusBadRequest updates
        | inr update =>
            match trySend updates update with
            | Sent_ updates' => Response StatusOK "" updates'     (* w.WriteHeader(http.StatusOK) *)
            | WouldBlock =>
                http_Error "Updates channel is full" StatusServiceUnavailable updates
            | PanicClosed => HandlerPanic
            end
        end
    end.
End Webhook.

(* ===================================================================== *)
(** ** debugs.go: the low-level send                                       *)
(* ===================================================================== *)

Section Debugs.
Context {bytes fields : Type} `{J : JSON bytes fields} `{K : Consts}.

(** The query of [sendMessage]. *)
Definition sendValues (chatID userID : Z) : Values :=
  (if chatID =? 0 then [] else [(paramChatID, Itoa chatID)]) ++
  (if userID =? 0 then [] else [(paramUserID, Itoa userID)]).

(** [json.NewDecoder(body).Decode(result)] on a fresh [schemes.Error]:
    a failing read of the stream or a failing decode of what was read. *)
Definition decodeError (body : ReadCloser bytes) : error + (string * string) :=
  match ReadAll body with
  | inl err => inl err
  | inr data => Decode_Error data
  end.

(** [sendMessage] of [debugs].  [message] is the text of the
    [NewMessageBody]; [response] is what the transport answers.  The
    result is the returned [error] ([None] is nil). *)
Definition sendMessage (reset : bool) (chatID userID : Z) (message : string)
    (response : error + ReadCloser bytes)
    : option error * list (@Event bytes fields) :=
  let request :=
    Ev_request "POST" pathMessages (sendValues chatID userID) reset (Some message) in
  match response with
  | inl err => (Some err, [request])
  | inr body =>
      let closing :=
        match Close body with
        | Some err => [Ev_log (Slog_close_failed err)]
        | None => []
        end in
      match decodeError body with
      | inl _ => (None, request :: closing)
      | inr (code, message') =>
          if (code =? "")%string then (None, request :: closing)
          else (Some (schemes_Error code message'), request :: closing)
      end
  end.
End Debugs.

(* ===================================================================== *)
(** ** A tree implementation of the JSON interface                         *)
(* ===================================================================== *)

(** Payloads as syntax trees, with the decoding rules of [encoding/json]
    for the structures above: a document that is not an object does not
    decode into a structure, [null] and absent keys leave the target as
    it is, a value of the wrong kind for a field is an error, the last of
    several equal keys wins.  Used to run the code on concrete payloads. *)
Module Wire.
#[warnings="-register-all"] Inductive value : Type :=
| Null
| Bool (b : bool)
| Number (z : Z)
| Str (s : string)
| Array (elements : list value)
| Object (members : list (string * value)).

(** A [[]byte]: bytes that are not a JSON document, or a document. *)
Inductive payload : Type :=
| Garbage (text : string)
| Doc (v : value).

Definition members : Type := list (string * value).

Definition quote : string := String (Ascii.ascii_of_nat 34) EmptyString.

Fixpoint render (v : value) : string :=
  match v with
  | Null => "null"
  | Bool true => "true"
  | Bool false => "false"
  | Number z => Itoa z
  | Str s => quote ++ s ++ quote
  | Array l =>
      "[" ++ (fix elems (l : list value) : string :=
                match l with
                | [] => ""
                | [x] => render x
                | x :: r => render x ++ "," ++ elems r
                end) l ++ "]"
  | Object ms =>
      "{" ++ (fix mems (ms : list (string * value)) : string :=
                match ms with
                | [] => ""
                | [(k, x)] => quote ++ k ++ quote ++ ":" ++ render x
                | (k, x) :: r => quote ++ k ++ quote ++ ":" ++ render x ++ "," ++ mems r
                end) ms ++ "}"
  end%string.

Definition text (data : payload) : string :=
  match data with
  | Garbage t => t
  | Doc v => render v
  end.

Fixpoint lookup (key : string) (ms : members) : option value :=
  match ms with
  | [] => None
  | (k, v) :: rest =>
      match lookup key rest with
      | Some v' => Some v'
      | None => if (k =? key)%string then Some v else None
      end
  end.

Definition SyntaxError : error := Errorf "invalid character looking for beginning of value".
Definition UnmarshalTypeError : error := Errorf "json: cannot unmarshal value into Go value".

(** The members of the object a structure is decoded from ([None]: the
    document is [null], the target stays as it is). *)
Definition object (data : payload) : error + option members :=
  match data with
  | Garbage _ => inl SyntaxError
  | Doc Null => inr None
  | Doc (Object ms) => inr (Some ms)
  | Doc _ => inl UnmarshalTypeError
  end.

Definition string_field (key : string) (ms : members) (current : string)
    : error + string :=
  match lookup key ms with
  | None | Some Null => inr current
  | Some (Str s) => inr s
  | Some _ => inl UnmarshalTypeError
  end.

Definition AttachmentI : Type := AttachmentInterface members.
Definition UpdateI : Type := UpdateInterface payload members.

Definition unmarshal_Attachment (data : payload) : error + Attachment :=
  match object data with
  | inl err => inl err
  | inr None => inr zero_Attachment
  | inr (Some ms) =>
      match string_field "type" ms "" with
      | inl err => inl err
      | inr t => inr {| Type_ := t |}
      end
  end.

Definition base_of (target : AttachmentI) : Attachment :=
  match target with
  | BaseAttachment a | AudioAttachment a _ | ContactAttachment a _
  | FileAttachment a _ | PhotoAttachment a _ | InlineKeyboardAttachment a _
  | LocationAttachment a _ | ShareAttachment a _ | StickerAttachment a _
  | VideoAttachment a _ => a
  end.

Definition refill (target : AttachmentI) (a : Attachment) (f : members) : AttachmentI :=
  match target with
  | BaseAttachment _ => BaseAttachment a
  | AudioAttachment _ _ => AudioAttachment a f
  | ContactAttachment _ _ => ContactAttachment a f
  | FileAttachment _ _ => FileAttachment a f
  | PhotoAttachment _ _ => PhotoAttachment a f
  | InlineKeyboardAttachment _ _ => InlineKeyboardAttachment a f
  | LocationAttachment _ _ => LocationAttachment a f
  | ShareAttachment _ _ => ShareAttachment a f
  | StickerAttachment _ _ => StickerAttachment a f
  | VideoAttachment _ _ => VideoAttachment a f
  end.

(** The variant structures carry a [payload] object. *)
Definition unmarshal_into_Attachment (data : payload) (target : AttachmentI)
    : error + AttachmentI :=
  match object data with
  | inl err => inl err
  | inr None => inr target
  | inr (Some ms) =>
      match string_field "type" ms (Type_ (base_of target)) with
      | inl err => inl err
      | inr t =>
          match lookup "payload" ms with
          | None | Some Null | Some (Object _) => inr (refill target {| Type_ := t |} ms)
          | Some _ => inl UnmarshalTypeError
          end
      end
  end.

Definition decode_body (v : option value) (b : MessageBody payload members)
    : error + MessageBody payload members :=
  match v with
  | None | Some Null => inr b
  | Some (Object ms) =>
      match lookup "attachments" ms with
      | None | Some Null =>
          inr {| Attachments := Attachments b; RawAttachments := RawAttachments b;
                 BodyFields := ms |}
      | Some (Array l) =>
          inr {| Attachments := Attachments b; RawAttachments := Some (map Doc l);
                 BodyFields := ms |}
      | Some _ => inl UnmarshalTypeError
      end
  | Some _ => inl UnmarshalTypeError
  end.

Definition zero_body : MessageBody payload members :=
  {| Attachments := []; RawAttachments := None; BodyFields := [] |}.

Definition decode_link (v : option value) (l : option (LinkedMessage payload members))
    : error + option (LinkedMessage payload members) :=
  match v with
  | None => inr l
  | Some Null => inr None
  | Some (Object ms) =>
      let current := match l with
                     | Some link => LinkedMessage_Message link
                     | None => zero_body
                     end in
      match decode_body (lookup "message" ms) current with
      | inl err => inl err
      | inr b => inr (Some {| LinkedMessage_Message := b; LinkFields := ms |})
      end
  | Some _ => inl UnmarshalTypeError
  end.

Definition decode_message (v : option value) (m : Message payload members)
    : error + Message payload members :=
  match v with
  | None | Some Null => inr m
  | Some (Object ms) =>
      match decode_body (lookup "body" ms) (Body m) with
      | inl err => inl err
      | inr b =>
          match decode_link (lookup "link" ms) (Link m) with
          | inl err => inl err
          | inr l => inr {| Body := b; Link := l; MessageFields := ms |}
          end
      end
  | Some _ => inl UnmarshalTypeError
  end.

Definition retype (u : Update) (t : string) : Update :=
  {| UpdateType := t; DebugRaw := DebugRaw u |}.

Definition unmarshal_Update (data : payload) : error + Update :=
  match object data with
  | inl err => inl err
  | inr None => inr {| UpdateType := ""; DebugRaw := "" |}
  | inr (Some ms) =>
      match string_field "type" ms "" with
      | inl err => inl err
      | inr t => inr {| UpdateType := t; DebugRaw := "" |}
      end
  end.

Definition envelope_of (target : UpdateI) : Update :=
  match target with
  | MessageCallbackUpdate _ u _ | MessageCreatedUpdate u _ | MessageRemovedUpdate _ u _
  | MessageEditedUpdate u _ | BotAddedToChatUpdate _ u _ | BotRemovedFromChatUpdate _ u _
  | UserAddedToChatUpdate _ u _ | UserRemovedFromChatUpdate _ u _
  | BotStartedUpdate _ u _ | ChatTitleChangedUpdate _ u _ => u
  end.

Definition unmarshal_into_Update (data : payload) (target : UpdateI) : error + UpdateI :=
  match object data with
  | inl err => inl err
  | inr None => inr target
  | inr (Some ms) =>
      match string_field "type" ms (UpdateType (envelope_of target)) with
      | inl err => inl err
      | inr t =>
          let u := retype (envelope_of target) t in
          match target with
          | MessageCreatedUpdate _ m =>
              match decode_message (lookup "message" ms) m with
              | inl err => inl err
              | inr m' => inr (MessageCreatedUpdate u m')
              end
          | MessageEditedUpdate _ m =>
              match decode_message (lookup "message" ms) m with
              | inl err => inl err
              | inr m' => inr (MessageEditedUpdate u m')
              end
          | MessageCallbackUpdate _ _ _ => inr (MessageCallbackUpdate payload u ms)
          | MessageRemovedUpdate _ _ _ => inr (MessageRemovedUpdate payload u ms)
          | BotAddedToChatUpdate _ _ _ => inr (BotAddedToChatUpdate payload u ms)
          | BotRemovedFromChatUpdate _ _ _ => inr (BotRemovedFromChatUpdate payload u ms)
          | UserAddedToChatUpdate _ _ _ => inr (UserAddedToChatUpdate payload u ms)
          | UserRemovedFromChatUpdate _ _ _ => inr (UserRemovedFromChatUpdate payload u ms)
          | BotStartedUpdate _ _ _ => inr (BotStartedUpdate payload u ms)
          | ChatTitleChangedUpdate _ _ _ => inr (ChatTitleChangedUpdate payload u ms)
          end
      end
  end.

Definition unmarshal_UpdateList (data : payload) : error + UpdateList payload :=
  match object data with
  | inl err => inl err
  | inr None => inr empty_UpdateList
  | inr (Some ms) =>
      match lookup "updates" ms, lookup "marker" ms with
      | (None | Some Null), (None | Some Null) => inr empty_UpdateList
      | (None | Some Null), Some (Number z) => inr {| Updates := []; Marker := Some z |}
      | Some (Array l), (None | Some Null) =>
          inr {| Updates := map Doc l; Marker := None |}
      | Some (Array l), Some (Number z) =>
          inr {| Updates := map Doc l; Marker := Some z |}
      | _, _ => inl UnmarshalTypeError
      end
  end.

Definition decode_Error (data : payload) : error + (string * string) :=
  match object data with
  | inl err => inl err
  | inr None => inr ("", "")
  | inr (Some ms) =>
      match string_field "code" ms "", string_field "message" ms "" with
      | inr c, inr m => inr (c, m)
      | inl err, _ | _, inl err => inl err
      end
  end.

#[export] Instance json : JSON payload members := {|
  string_of_bytes := text;
  zero_fields := [];
  Unmarshal_Update := unmarshal_Update;
  Unmarshal_into_Update := unmarshal_into_Update;
  Unmarshal_Attachment := unmarshal_Attachment;
  Unmarshal_into_Attachment := unmarshal_into_Attachment;
  Unmarshal_UpdateList := unmarshal_UpdateList;
  Decode_Error := decode_Error |}.

(** The constants, for concrete runs.  Modelled from the spec:
    [maxRetries] (five attempts) and the query parameter names of the
    update-fetch endpoint; the other values are placeholders that no
    statement depends on. *)
#[export] Instance consts : Consts := {|
  maxRetries := 5;
  maxUpdatesLimit := 50;
  pathUpdates := "updates";
  pathMessages := "messages";
  paramLimit := "limit";
  paramTimeout := "timeout";
  paramMarker := "marker";
  paramTypes := "types";
  paramChatID := "chat_id";
  paramUserID := "user_id" |}.

Definition api : Api := {| timeout := 30 * Second; pause := Second; debug := false |}.
End Wire.

(* ===================================================================== *)
(** ** Concrete payloads and environments                                  *)
(* ===================================================================== *)

Module Examples.
Import Wire.

Definition typed (t : string) : value := Object [("type", Str t)].

Definition bot_started : payload := Doc (typed "bot_started").
Definition user_added : payload := Doc (typed "user_added").
Definition totally_unknown : payload := Doc (typed "totally_unknown").

Definition audio : payload := Doc (typed "audio").
Definition new_widget : payload := Doc (typed "new_widget").

(** An audio attachment whose [payload] is a number, not an object. *)
Definition broken_audio : value := Object [("type", Str "audio"); ("payload", Number 3)].

(** A message-edited update without attachments of its own that quotes a
    message with one audio attachment. *)
Definition edited_with_link : payload :=
  Doc (Object
    [("type", Str "message_edited");
     ("message", Object
        [("body", Object [("text", Str "see above")]);
         ("link", Object
            [("type", Str "reply");
             ("message", Object [("attachments", Array [typed "audio"])])])])]).

(** A message-created update whose second attachment does not decode. *)
Definition created_with_broken : payload :=
  Doc (Object
    [("type", Str "message_created");
     ("message", Object
        [("body", Object [("attachments", Array [typed "audio"; broken_audio])])])]).

(** The message of [created_with_broken] after the structural decode. *)
Definition broken_message : Message payload members :=
  {| Body := {| Attachments := [];
                RawAttachments := Some [audio; Doc broken_audio];
                BodyFields := [("attachments", Array [typed "audio"; broken_audio])] |};
     Link := None;
     MessageFields :=
       [("body", Object [("attachments", Array [typed "audio"; broken_audio])])] |}.

(** A message whose body has an empty, present raw-attachment list and
    whose link carries one raw attachment. *)
Definition quoting_message (raw : option (list payload)) : Message payload members :=
  {| Body := {| Attachments := []; RawAttachments := raw; BodyFields := [] |};
     Link := Some {| LinkedMessage_Message :=
                       {| Attachments := []; RawAttachments := Some [audio];
                          BodyFields := [] |};
                     LinkFields := [] |};
     MessageFields := [] |}.

Definition resolved_audio : AttachmentI :=
  AudioAttachment {| Type_ := "audio" |} [("type", Str "audio")].

Definition edited : Update := {| UpdateType := "message_edited"; DebugRaw := "" |}.

(** A transport answer carrying a page. *)
Definition page (updates : list value) (next : option Z) : error + ReadCloser payload :=
  inr {| ReadAll :=
           inr (Doc (Object (("updates", Array updates) ::
                             match next with
                             | Some z => [("marker", Number z)]
                             | None => []
                             end)));
         Close := None |}.

(** Three pages with the markers 5, none, 9, the page of the
    unknown-discriminator scenario, and the transport answers that carry
    them. *)
Definition page5 : UpdateList payload := {| Updates := [bot_started]; Marker := Some 5 |}.
Definition mixed_page : UpdateList payload :=
  {| Updates := [bot_started; totally_unknown; user_added]; Marker := Some 9 |}.

Definition answer5 := page [typed "bot_started"] (Some 5).
Definition answer_mixed :=
  page [typed "bot_started"; typed "totally_unknown"; typed "user_added"] (Some 9).

(** An environment that answers every attempt alike and never cancels. *)
Definition always (answer : error + ReadCloser payload) : nat -> @Attempt payload :=
  fun _ => {| response := answer; ctx_Err := None; wait_Done := None |}.

Definition round (answer : error + ReadCloser payload) : @Round payload :=
  {| select_Done := false; attempts := always answer; sends := None |}.

Definition unreachable : error + ReadCloser payload := inl (Errorf "connection refused").

Definition start : @Fetcher payload members := {| phase := Idle; marker := 0; trace := [] |}.

(** An open channel of capacity 1 holding [queued]. *)
Definition queue (queued : list UpdateI) : @Chan payload members :=
  {| capacity := 1; buffer := queued; receivers := 0; handed := []; closed := false |}.

Definition started : UpdateI :=
  BotStartedUpdate payload {| UpdateType := "bot_started"; DebugRaw := "" |}
    [("type", Str "bot_started")].

Definition added : UpdateI :=
  UserAddedToChatUpdate payload {| UpdateType := "user_added"; DebugRaw := "" |}
    [("type", Str "user_added")].
End Examples.

(* ===================================================================== *)
(** ** Observations on pages and traces                                    *)
(* ===================================================================== *)

Section Observations.
Context {bytes fields : Type} `{J : JSON bytes fields}.

(** The updates of a page that decode, in page order. *)
Fixpoint decodable (a : Api) (updates : list bytes)
    : list (UpdateInterface bytes fields) :=
  match updates with
  | [] => []
  | rawUpdate :: rest =>
      match bytesToProperUpdate a rawUpdate with
      | inl _ => decodable a rest
      | inr update => update :: decodable a rest
      end
  end.

(** The number of [close(ch)] events of a trace. *)
Fixpoint closes (tr : list (@Event bytes fields)) : nat :=
  match tr with
  | [] => O
  | Ev_close :: tr' => S (closes tr')
  | _ :: tr' => closes tr'
  end.
End Observations.

(** The sum of a list of durations. *)
Definition total (ds : list Z) : Z := fold_right Z.add 0 ds.

(** Response bodies whose [Close] succeeds: the environment obtained by
    replacing, in every answer of the transport, the result of [Close] by
    nil; and the trace obtained by dropping the lines that report a failed
    close. *)
Section Closing.
Context {bytes fields : Type}.

Definition healthy_response (response : error + ReadCloser bytes) : error + ReadCloser bytes :=
  match response with
  | inl err => inl err
  | inr body => inr {| ReadAll := ReadAll body; Close := None |}
  end.

Definition healthy_attempts (env : nat -> @Attempt bytes) : nat -> @Attempt bytes :=
  fun i => {| response := healthy_response (response (env i));
              ctx_Err := ctx_Err (env i);
              wait_Done := wait_Done (env i) |}.

Definition healthy_round (r : @Round bytes) : @Round bytes :=
  {| select_Done := select_Done r;
     attempts := healthy_attempts (attempts r);
     sends := sends r |}.

Definition close_log (e : @Event bytes fields) : bool :=
  match e with
  | Ev_log (Log_close_failed _) => true
  | _ => false
  end.

Definition without_close_logs (tr : list (@Event bytes fields)) : list (@Event bytes fields) :=
  filter (fun e => negb (close_log e)) tr.
End Closing.


(* ===================================================================== *)
(** ** messages.go: queries, sends and checks                              *)
(* ===================================================================== *)

(** The fields of [schemes.NewMessageBody] that messages.go reads;
    [PhoneNumbers] is a slice that may be nil. *)
Record NewMessageBody : Type := {
  Text : string;
  BotToken : string;
  PhoneNumbers : option (list string) }.

(** [maxbot.Message], the outgoing message a caller has built, as
    messages.go reads it. *)
Record OutgoingMessage : Type := {
  m_reset : bool;
  m_chatID : Z;
  m_userID : Z;
  m_message : NewMessageBody }.

(** [schemes.SimpleQueryResult] as [EditMessage] reads it. *)
Record SimpleQueryResult : Type := { Success : bool; Result_Message : string }.

(** [schemes.Error] as messages.go reads it after a decode. *)
Record ErrorBody : Type := {
  Error_Code : string;
  Error_Message : string;
  NumberExist : list string }.

Definition zero_SimpleQueryResult : SimpleQueryResult :=
  {| Success := false; Result_Message := "" |}.

Definition zero_ErrorBody : ErrorBody :=
  {| Error_Code := ""; Error_Message := ""; NumberExist := [] |}.

(** One call of [a.client.request(ctx, method, path, values, reset, body)]. *)
Record Call : Type := {
  Call_method : string;
  Call_path : string;
  Call_values : Values;
  Call_reset : bool;
  Call_body : option NewMessageBody }.

(** Observable effects of a function of messages.go, in program order. *)
Inductive Effect : Type :=
| Requested (c : Call)          (* a.client.request(...) *)
| Logged (line : LogLine).      (* slog.Error(...) *)

Definition calls (tr : list Effect) : list Call :=
  flat_map (fun e => match e with Requested c => [c] | Logged _ => [] end) tr.

(** Package-level constants that messages.go and the chat functions use
    and whose declarations are not part of the sources at hand. *)
Class MoreConsts : Type := {
  paramMessageIDs : string;
  paramFrom : string;
  paramTo : string;
  paramCount : string;
  paramMessageID : string;
  paramAccessToken : string;
  paramPhoneNumbers : string;
  notifyExists : string }.

(** [json.NewDecoder(body).Decode(target)] on the bytes of a response,
    for the targets of messages.go, each a fresh zero value: the target
    afterwards and the error. *)
Class MessagesJSON (bytes fields : Type) : Type := {
  MessageList : Type;                                         (* schemes.MessageList *)
  zero_MessageList : MessageList;
  Decode_MessageList : bytes -> MessageList * option error;
  Decode_MessageResponse : bytes -> Message bytes fields * option error;
  Decode_SimpleQueryResult : bytes -> SimpleQueryResult * option error;
  Decode_ErrorBody : bytes -> ErrorBody * option error }.

(** [strings.Join(elems, sep)]. *)
Definition Join (elems : list string) (sep : string) : string := String.concat sep elems.

Module messages.
Section Messages.
Context {bytes fields : Type} `{J : JSON bytes fields} `{K : Consts}
        `{MC : MoreConsts} `{MJ : MessagesJSON bytes fields}.

(** A streaming decode of a response body into a fresh [zero]: a read
    that fails leaves the target untouched (the decoder buffers a whole
    value before it fills the target). *)
Definition Decode {T : Type} (zero : T) (decode : bytes -> T * option error)
    (body : ReadCloser bytes) : T * option error :=
  match ReadAll body with
  | inl err => (zero, Some err)
  | inr data => decode data
  end.

(** The deferred [body.Close()] with its [slog.Error]. *)
Definition closing (body : ReadCloser bytes) : list Effect :=
  match Close body with
  | Some err => [Logged (Slog_close_failed err)]
  | None => []
  end.

(** The query of [GetMessages]. *)
Definition GetMessages_values (chatID : Z) (messageIDs : list string)
    (from to count : Z) : Values :=
  let '(from, to) := if to <? from then (to, from) else (from, to) in
  (if chatID =? 0 then [] else [(paramChatID, Itoa chatID)]) ++
  (match messageIDs with
   | [] => []
   | _ :: _ => [(paramMessageIDs, Join messageIDs ",")]
   end) ++
  (if from =? 0 then [] else [(paramFrom, Itoa from)]) ++
  (if to =? 0 then [] else [(paramTo, Itoa to)]) ++
  (if 0 <? count then [(paramCount, Itoa count)] else []).

(** [GetMessages]; [response] is what the transport answers. *)
Definition GetMessages (chatID : Z) (messageIDs : list string) (from to count : Z)
    (response : error + ReadCloser bytes)
    : (MessageList * option error) * list Effect :=
  let call := {| Call_method := "GET"; Call_path := pathMessages;
                 Call_values := GetMessages_values chatID messageIDs from to count;
                 Call_reset := false; Call_body := None |} in
  match response with
  | inl err => ((zero_MessageList, Some err), [Requested call])
  | inr body =>
      (Decode zero_MessageList Decode_MessageList body, Requested call :: closing body)
  end.

(** [sendMessage] of [messages]. *)
Definition sendMessage (reset : bool) (chatID userID : Z) (message : NewMessageBody)
    (response : error + ReadCloser bytes)
    : (option (Message bytes fields) * option error) * list Effect :=
  let call := {| Call_method := "POST"; Call_path := pathMessages;
                 Call_values := sendValues chatID userID;
                 Call_reset := reset; Call_body := Some message |} in
  match response with
  | inl err => ((None, Some err), [Requested call])
  | inr body =>
      match Decode (zero_Message zero_fields) Decode_MessageResponse body with
      | (_, Some err) => ((None, Some err), Requested call :: closing body)
      | (wrapper, None) => ((Some wrapper, None), Requested call :: closing body)
      end
  end.

(** [SendWithResult]. *)
Definition SendWithResult (m : OutgoingMessage) (response : error + ReadCloser bytes)
    : (option (Message bytes fields) * option error) * list Effect :=
  sendMessage (m_reset m) (m_chatID m) (m_userID m) (m_message m) response.

(** [Send]. *)
Definition Send (m : OutgoingMessage) (response : error + ReadCloser bytes)
    : option error * list Effect :=
  let '((_, err), tr) :=
    sendMessage (m_reset m) (m_chatID m) (m_userID m) (m_message m) response in
  (err, tr).

(** [editMessage]. *)
Definition editMessage (messageID : string) (message : NewMessageBody)
    (response : error + ReadCloser bytes)
    : (SimpleQueryResult * option error) * list Effect :=
  let call := {| Call_method := "PUT"; Call_path := pathMessages;
                 Call_values := [(paramMessageID, messageID)];
                 Call_reset := false; Call_body := Some message |} in
  match response with
  | inl err => ((zero_SimpleQueryResult, Some err), [Requested call])
  | inr body =>
      (Decode zero_SimpleQueryResult Decode_SimpleQueryResult body,
       Requested call :: closing body)
  end.

(** [EditMessage]. *)
Definition EditMessage (messageID : string) (m : OutgoingMessage)
    (response : error + ReadCloser bytes) : option error * list Effect :=
  let '((s, err), tr) := editMessage messageID (m_message m) response in
  match err with
  | Some err => (Some err, tr)
  | None =>
      if negb (Success s) then (Some (Errorf (Result_Message s)), tr)   (* errors.New(s.Message) *)
      else (None, tr)
  end.

(** The query of [checkUser] and of [checkNumberExist]. *)
Definition existsValues (reset : bool) (message : NewMessageBody) : Values :=
  (if reset then [(paramAccessToken, BotToken message)] else []) ++
  (match PhoneNumbers message with
   | Some numbers => [(paramPhoneNumbers, Join numbers ",")]
   | None => []
   end).

(** [checkUser].  The decoded [*schemes.Error] is returned as the
    [error], whatever it holds. *)
Definition checkUser (reset : bool) (message : NewMessageBody)
    (response : error + ReadCloser bytes) : (bool * option error) * list Effect :=
  let call := {| Call_method := "GET"; Call_path := notifyExists;
                 Call_values := existsValues reset message;
                 Call_reset := reset; Call_body := None |} in
  match response with
  | inl err => ((false, Some err), [Requested call])
  | inr body =>
      match Decode zero_ErrorBody Decode_ErrorBody body with
      | (_, Some err) => ((false, Some err), Requested call :: closing body)
      | (result, None) =>
          let err := schemes_Error (Error_Code result) (Error_Message result) in
          match NumberExist result with
          | _ :: _ => ((true, Some err), Requested call :: closing body)
          | [] => ((false, Some err), Requested call :: closing body)
          end
      end
  end.

(** [Check]. *)
Definition Check (m : OutgoingMessage) (response : error + ReadCloser bytes)
    : (bool * option error) * list Effect :=
  checkUser (m_reset m) (m_message m) response.

(** [checkNumberExist]; the list is nil ([None]) unless numbers were
    found.  The body is closed by a bare [defer body.Close()], without a
    log line. *)
Definition checkNumberExist (reset : bool) (message : NewMessageBody)
    (response : error + ReadCloser bytes)
    : (option (list string) * option error) * list Effect :=
  let call := {| Call_method := "GET"; Call_path := notifyExists;
                 Call_values := existsValues reset message;
                 Call_reset := reset; Call_body := None |} in
  match response with
  | inl err => ((None, Some err), [Requested call])
  | inr body =>
      match Decode zero_ErrorBody Decode_ErrorBody body with
      | (_, Some err) => ((None, Some err), [Requested call])
      | (result, None) =>
          let err := schemes_Error (Error_Code result) (Error_Message result) in
          match NumberExist result with
          | _ :: _ => ((Some (NumberExist result), Some err), [Requested call])
          | [] => ((None, Some err), [Requested call])
          end
      end
  end.

(** [ListExist]. *)
Definition ListExist (m : OutgoingMessage) (response : error + ReadCloser bytes)
    : (option (list string) * option error) * list Effect :=
  checkNumberExist (m_reset m) (m_message m) response.
End Messages.
End messages.

(* ===================================================================== *)
(** ** api.go: the queries of the chat functions                           *)
(* ===================================================================== *)

Module chats.
Section Chats.
Context `{K : Consts} `{MC : MoreConsts}.

(** The query of [GetChats]. *)
Definition GetChats_values (count marker : Z) : Values :=
  (if 0 <? count then [(paramCount, Itoa count)] else []) ++
  (if 0 <? marker then [(paramMarker, Itoa marker)] else []).

(** The query of [GetChatMembers]. *)
Definition GetChatMembers_values (count marker : Z) : Values :=
  (if 0 <? count then [(paramCount, Itoa count)] else []) ++
  (if marker =? 0 then [] else [(paramMarker, Itoa marker)]).

(** The query of [GetSpecificChatMembers]: the loop that fills [ids]
    and the [Set] of their join. *)
Definition GetSpecificChatMembers_values (userIDs : list Z) : Values :=
  let ids := map Itoa userIDs in
  [("user_ids", Join ids ",")].
End Chats.
End chats.

(* ===================================================================== *)
(** ** api.go: the constructors                                            *)
(* ===================================================================== *)

(** Package-level defaults whose declarations are not part of the
    sources at hand. *)
Class Defaults : Type := {
  defaultAPIURL : string;
  defaultTimeout : Z;          (* a time.Duration *)
  defaultPause : Z;            (* a time.Duration *)
  version : string;
  envToken : string }.

(** What the constructors use of their platform: [url.Parse] and
    [os.Getenv]. *)
Class Platform : Type := {
  URL : Type;                                  (* *url.URL *)
  url_Parse : string -> error + URL;
  os_Getenv : string -> string }.

(** The answers of the methods of [configservice.ConfigInterface] that
    [NewWithConfig] calls. *)
Record Config : Type := {
  BotTokenCheckString : string;
  GetHttpBotAPITimeOut : Z;
  GetHttpBotAPIUrl : string;
  GetHttpBotAPIVersion : string;
  GetDebugLogMode : bool;
  GetDebugLogChat : Z }.

(** The errors of the constructors: the two package sentinels, the
    second wrapped with the cause by [fmt.Errorf("%w: %v", ...)], and
    [fmt.Errorf("config is nil")]. *)
Inductive NewError : Type :=
| ErrEmptyToken
| ErrInvalidURL (cause : error)
| config_is_nil.

Section Constructors.
Context `{D : Defaults} `{P : Platform}.

(** The arguments of [newClient]: token, version, base URL and the
    timeout of the [http.Client]. *)
Record client : Type := {
  client_token : string;
  client_version : string;
  client_url : URL;
  http_Timeout : Z }.

(** A constructed [*Api]: the fields the pipeline reads, the client
    shared by the sub-clients, and the chat of [Debugs]. *)
Record Built : Type := {
  api_of : Api;
  client_of : client;
  Debugs_chat : Z }.

(** [New]. *)
Definition New (token : string) : NewError + Built :=
  if (token =? "")%string then inl ErrEmptyToken
  else
    match url_Parse defaultAPIURL with
    | inl err => inl (ErrInvalidURL err)
    | inr u =>
        let cl := {| client_token := token; client_version := version;
                     client_url := u; http_Timeout := defaultTimeout |} in
        inr {| api_of := {| timeout := defaultTimeout; pause := defaultPause;
                            debug := false |};
               client_of := cl;
               Debugs_chat := 0 |}
    end.

(** [NewWithConfig]; a nil [cfg] is [None].
    [time.Duration(cfg.GetHttpBotAPITimeOut()) * time.Second] is computed
    in [int64]. *)
Definition NewWithConfig (cfg : option Config) : NewError + Built :=
  match cfg with
  | None => inl config_is_nil
  | Some cfg =>
      let token := BotTokenCheckString cfg in
      let token := if (token =? "")%string then os_Getenv envToken else token in
      if (token =? "")%string then inl ErrEmptyToken
      else
        let timeout := wrap64 (wrap64 (GetHttpBotAPITimeOut cfg) * Second) in
        let timeout := if timeout <=? 0 then defaultTimeout else timeout in
        let baseURL := GetHttpBotAPIUrl cfg in
        let baseURL := if (baseURL =? "")%string then defaultAPIURL else baseURL in
        match url_Parse baseURL with
        | inl err => inl (ErrInvalidURL err)
        | inr u =>
            let apiVersion := GetHttpBotAPIVersion cfg in
            let apiVersion := if (apiVersion =? "")%string then version else apiVersion in
            let cl := {| client_token := token; client_version := apiVersion;
                         client_url := u; http_Timeout := timeout |} in
            inr {| api_of := {| timeout := timeout; pause := defaultPause;
                                debug := GetDebugLogMode cfg |};
                   client_of := cl;
                   Debugs_chat := GetDebugLogChat cfg |}
        end
  end.
End Constructors.

(* ===================================================================== *)
(** ** debugs.go: the two public sends                                     *)
(* ===================================================================== *)

Module debugs.
Section Sends.
Context {bytes fields : Type} `{J : JSON bytes fields} `{K : Consts}.

(** [SendErr]; [chat] is the field [a.chat] that [newDebugs] has set. *)
Definition SendErr (chat : Z) (err : error) (response : error + ReadCloser bytes)
    : option error * list (@Event bytes fields) :=
  sendMessage false chat 0 (Error_string err) response.
End Sends.
End debugs.

(* ===================================================================== *)
(** ** api.go, messages.go: the inline-keyboard builder                    *)
(* ===================================================================== *)

(** [schemes.Intent] and the button types of package [schemes]. *)
Definition Intent : Type := string.

Inductive ButtonType : Type := LINK | CALLBACK | CONTACT | GEOLOCATION | OPEN_APP.

(** [schemes.Button], the part shared by all buttons. *)
Record Button : Type := { Button_Text : string; Button_Type : ButtonType }.

(** The [schemes.ButtonInterface] values that the row methods build. *)
Inductive ButtonInterface : Type :=
| LinkButton (Url : string) (b : Button)
| CallbackButton (Payload : string) (intent : Intent) (b : Button)
| RequestContactButton (b : Button)
| RequestGeoLocationButton (Quick : bool) (b : Button)
| OpenAppButton (WebApp Payload : string) (ContactId : Z) (b : Button).

(** The builder objects live on the heap and are handled through
    pointers: a [*Keyboard] is the index of its [rows] slice in
    [keyboards], a [*KeyboardRow] the index of its [cols] slice in
    [rows].  [k.rows] holds pointers to rows. *)
Record Heap : Type := {
  keyboards : list (list nat);
  rows : list (list ButtonInterface) }.

Definition empty_Heap : Heap := {| keyboards := []; rows := [] |}.

(** [l[i] = v] on an index in range. *)
Fixpoint store {A : Type} (l : list A) (i : nat) (v : A) : list A :=
  match l, i with
  | [], _ => []
  | _ :: l', O => v :: l'
  | x :: l', S i' => x :: store l' i' v
  end.

(** The builder functions.  A function applied to a pointer that is not
    allocated has no result ([None]); the pointers that the functions
    return are allocated. *)

(** [NewKeyboardBuilder]: a fresh keyboard without rows. *)
Definition NewKeyboardBuilder (h : Heap) : nat * Heap :=
  (List.length (keyboards h),
   {| keyboards := keyboards h ++ [[]]; rows := rows h |}).

(** [AddRow]: allocates a row, appends its pointer to [k.rows] and
    returns it. *)
Definition AddRow (k : nat) (h : Heap) : option (nat * Heap) :=
  match nth_error (keyboards h) k with
  | None => None
  | Some k_rows =>
      let kr := List.length (rows h) in
      Some (kr, {| keyboards := store (keyboards h) k (k_rows ++ [kr]);
                   rows := rows h ++ [[]] |})
  end.

(** [AddButton]: appends to [k.cols] and returns the row. *)
Definition AddButton (kr : nat) (b : ButtonInterface) (h : Heap) : option (nat * Heap) :=
  match nth_error (rows h) kr with
  | None => None
  | Some cols => Some (kr, {| keyboards := keyboards h; rows := store (rows h) kr (cols ++ [b]) |})
  end.

(** The five typed variants of [AddButton]. *)
Definition AddLink (kr : nat) (text : string) (_ : Intent) (url : string) (h : Heap) :=
  AddButton kr (LinkButton url {| Button_Text := text; Button_Type := LINK |}) h.

Definition AddCallback (kr : nat) (text : string) (intent : Intent) (payload : string)
    (h : Heap) :=
  AddButton kr (CallbackButton payload intent
                  {| Button_Text := text; Button_Type := CALLBACK |}) h.

Definition AddContact (kr : nat) (text : string) (h : Heap) :=
  AddButton kr (RequestContactButton {| Button_Text := text; Button_Type := CONTACT |}) h.

Definition AddGeolocation (kr : nat) (text : string) (quick : bool) (h : Heap) :=
  AddButton kr (RequestGeoLocationButton quick
                  {| Button_Text := text; Button_Type := GEOLOCATION |}) h.

Definition AddOpenApp (kr : nat) (text app payload : string) (contactId : Z) (h : Heap) :=
  AddButton kr (OpenAppButton app payload contactId
                  {| Button_Text := text; Button_Type := OPEN_APP |}) h.

(** [KeyboardRow.Build]. *)
Definition Row_Build (kr : nat) (h : Heap) : option (list ButtonInterface) :=
  nth_error (rows h) kr.

(** The loop of [Keyboard.Build] over [k.rows]. *)
Fixpoint Build_loop (k_rows : list nat) (h : Heap) (buttons : list (list ButtonInterface))
    : option (list (list ButtonInterface)) :=
  match k_rows with
  | [] => Some buttons
  | r :: rest =>
      match Row_Build r h with
      | None => None
      | Some cols => Build_loop rest h (buttons ++ [cols])
      end
  end.

(** [Keyboard.Build]: the [Buttons] of the [schemes.Keyboard]. *)
Definition Build (k : nat) (h : Heap) : option (list (list ButtonInterface)) :=
  match nth_error (keyboards h) k with
  | None => None
  | Some k_rows => Build_loop k_rows h []
  end.

(** One call of the builder's interface, and a program of such calls run
    from a heap. *)
Inductive BuilderCall : Type :=
| call_NewKeyboardBuilder
| call_AddRow (k : nat)
| call_AddButton (kr : nat) (b : ButtonInterface).

Definition run_call (h : Heap) (c : BuilderCall) : option Heap :=
  match c with
  | call_NewKeyboardBuilder => Some (snd (NewKeyboardBuilder h))
  | call_AddRow k => option_map snd (AddRow k h)
  | call_AddButton kr b => option_map snd (AddButton kr b h)
  end.

Fixpoint run (program : list BuilderCall) (h : Heap) : option Heap :=
  match program with
  | [] => Some h
  | c :: rest =>
      match run_call h c with
      | None => None
      | Some h' => run rest h'
      end
  end.

(** The rows of a keyboard are its own: every row pointer held by a
    keyboard is allocated, and no row pointer is held twice, be it by two
    keyboards or by one. *)
Definition separate (h : Heap) : Prop :=
  Forall (fun kr => (kr < List.length (rows h))%nat) (List.concat (keyboards h)) /\
  NoDup (List.concat (keyboards h)).

(** Whether the character [c] occurs in [s]. *)
Fixpoint occurs (c : Ascii.ascii) (s : string) : bool :=
  match s with
  | EmptyString => false
  | String c' s' => Ascii.eqb c c' || occurs c s'
  end.

Definition comma : Ascii.ascii := Ascii.ascii_of_nat 44.

(* ===================================================================== *)
(** ** Environments for concrete runs of the fetch loop                    *)
(* ===================================================================== *)

Module Scenarios.
Import Wire Examples.

(** A transport that refuses the first [n] connections and gives
    [answer] from then on; nothing is cancelled. *)
Definition recovering (n : nat) (answer : error + ReadCloser payload)
    : nat -> @Attempt payload :=
  fun i => {| response := if (i <? n)%nat then unreachable else answer;
              ctx_Err := None; wait_Done := None |}.

(** An error of the transport that wraps [s]. *)
Definition aborted (s : Sentinel) : error + ReadCloser payload :=
  inl (Errorf_w "Get updates" (Sentinel_error s)).

(** The context is cancelled while attempt [n] is in flight. *)
Definition cancelled_in (n : nat) : nat -> @Attempt payload :=
  fun i => {| response := if (i <? n)%nat then unreachable else aborted context_Canceled;
              ctx_Err := if (i <? n)%nat then None else Some context_Canceled;
              wait_Done := None |}.

(** The context is cancelled during the wait that follows attempt [n]. *)
Definition cancelled_after (n : nat) : nat -> @Attempt payload :=
  fun i => {| response := unreachable; ctx_Err := None;
              wait_Done := if (i <? n)%nat then None else Some context_Canceled |}.

Definition refused : error := Errorf_w "failed to get updates" (Errorf "connection refused").

(** The long poll ran out without an update. *)
Definition poll_timeout : error + ReadCloser payload :=
  inl (Errorf_w "Get updates" (TimeoutError "no update within the poll timeout")).

(** The first request of a fresh loop. *)
Definition first_poll : @Event payload members :=
  Ev_request "GET" "updates" [("limit", "50"); ("timeout", "30")] false None.

(** A round in which [ctx.Done()] is selected at the send that follows
    [n] completed ones. *)
Definition cut_round (answer : error + ReadCloser payload) (n : nat) : @Round payload :=
  {| select_Done := false; attempts := always answer; sends := Some n |}.

(** Defaults and a platform for runs of the constructors: a default
    timeout of 30 seconds, a parser that accepts every string, an empty
    process environment. *)
#[export] Instance defaults : Defaults :=
  {| defaultAPIURL := "https://platform-api.max.ru/";
     defaultTimeout := 30 * Second;
     defaultPause := 1 * Second;
     version := "1";
     envToken := "TOKEN" |}.

#[export] Instance platform : Platform :=
  {| URL := string; url_Parse := fun s => inr s; os_Getenv := fun _ => "" |}.

(** A configuration whose timeout, 9223372037 seconds, does not fit
    into an [int64] number of nanoseconds. *)
Definition hurried : Config :=
  {| BotTokenCheckString := "t0k3n"; GetHttpBotAPITimeOut := 9223372037;
     GetHttpBotAPIUrl := ""; GetHttpBotAPIVersion := "";
     GetDebugLogMode := true; GetDebugLogChat := 7 |}.

Definition built_hurried : @Built platform :=
  {| api_of := {| timeout := 30 * Second; pause := 1 * Second; debug := true |};
     client_of := {| client_token := "t0k3n"; client_version := "1";
                     client_url := "https://platform-api.max.ru/" : @URL platform;
                     http_Timeout := 30 * Second |};
     Debugs_chat := 7 |}.

(** Two keyboards, the first with the rows 0 (one button) and 1, the
    second with row 2, and the program that builds them. *)
Definition yes : ButtonInterface :=
  CallbackButton "yes" "positive" {| Button_Text := "Yes"; Button_Type := CALLBACK |}.

Definition no : ButtonInterface :=
  CallbackButton "no" "negative" {| Button_Text := "No"; Button_Type := CALLBACK |}.

Definition two_keyboards : list BuilderCall :=
  [call_NewKeyboardBuilder; call_AddRow 0; call_AddRow 0;
   call_NewKeyboardBuilder; call_AddRow 1; call_AddButton 0 yes].

Definition two_keyboards_heap : Heap :=
  {| keyboards := [[0; 1]; [2]]%nat; rows := [[yes]; []; []] |}.
End Scenarios.
(* ===================================================================== *)
(** * Properties                                                           *)
(* ===================================================================== *)

(** ** The attachment decoder *)

Section DecoderFacts.
Context {bytes fields : Type} `{J : JSON bytes fields}.

Local Abbreviation UpdateI := (UpdateInterface bytes fields).
Local Abbreviation AttachmentI := (AttachmentInterface fields).

(** A raw attachment resolves to [att]. *)
Local Abbreviation resolves raw att := (bytesToProperAttachment raw = inr att).

Lemma convertRawAttachments_loop_ok (raws : list bytes) :
  forall (atts acc : list AttachmentI),
    Forall2 (fun raw att => resolves raw att) raws atts ->
    convertRawAttachments_loop raws acc = inr (acc ++ atts).
Proof.
  induction raws as [|raw raws IH]; intros atts acc H; inversion H; subst; cbn.
  - now rewrite app_nil_r.
  - match goal with E : resolves raw _ |- _ => rewrite E end. cbn.
    rewrite (IH _ _ ltac:(eassumption)). now rewrite <- app_assoc.
Qed.

Lemma convertRawAttachments_loop_inv (raws : list bytes) :
  forall (acc l : list AttachmentI),
    convertRawAttachments_loop raws acc = inr l ->
    exists atts, l = acc ++ atts /\ Forall2 (fun raw att => resolves raw att) raws atts.
Proof.
  induction raws as [|raw raws IH]; intros acc l H; cbn in H.
  - injection H as <-. exists []. split; [now rewrite app_nil_r | constructor].
  - destruct (bytesToProperAttachment raw) as [e|att] eqn:E; cbn in H; [discriminate|].
    destruct (IH _ _ H) as (atts & -> & F).
    exists (att :: atts). split; [now rewrite <- app_assoc | now constructor].
Qed.

(** The loop stops at the first raw attachment that does not decode and
    returns that attachment's error, wrapped once. *)
Lemma convertRawAttachments_loop_fails (raws : list bytes) :
  forall (acc : list AttachmentI) (bad : bytes) (e : error),
    In bad raws -> bytesToProperAttachment bad = inl e ->
    exists pre first post e',
      raws = pre ++ first :: post /\
      Forall (fun raw => exists att, resolves raw att) pre /\
      bytesToProperAttachment first = inl e' /\
      convertRawAttachments_loop raws acc = inl (Errorf_w "failed to process attachment" e').
Proof.
  induction raws as [|raw raws IH]; intros acc bad e Hin Hbad; [contradiction|].
  destruct (bytesToProperAttachment raw) as [e0|att] eqn:E.
  - exists [], raw, raws, e0. cbn. rewrite E. cbn. repeat split; auto.
  - destruct Hin as [->|Hin]; [congruence|].
    destruct (IH (acc ++ [att]) bad e Hin Hbad) as (pre & first & post & e' & -> & F & Hf & Hl).
    exists (raw :: pre), first, post, e'. cbn. rewrite E. cbn.
    repeat split; auto. constructor; eauto.
Qed.

Lemma convertRawAttachments_ok (raws : list bytes) (atts : list AttachmentI) :
  Forall2 (fun raw att => resolves raw att) raws atts ->
  convertRawAttachments raws = inr atts.
Proof. intro H. unfold convertRawAttachments. now rewrite (convertRawAttachments_loop_ok [] H). Qed.

Lemma set_Attachments_same (b : MessageBody bytes fields) :
  set_Attachments b (Attachments b) = b.
Proof. now destruct b. Qed.

Lemma processMessageAttachments_message mk (u : Update) (m : Message bytes fields) :
  messageUpdate mk ->
  processMessageAttachments (mk u m) =
    match processMessage m with
    | inl err => inl err
    | inr m' => inr (mk u m')
    end.
Proof. intros [-> | ->]; cbn; now destruct (processMessage m). Qed.

Lemma bytesToProperUpdate_unmarshalled (a : Api) (data : bytes) (update : UpdateI) :
  unmarshalsTo a data update ->
  bytesToProperUpdate a data =
    match processMessageAttachments update with
    | inl err => inl (Errorf_w "failed to process message attachments" err)
    | inr update' => inr update'
    end.
Proof.
  intros (b & c & H1 & H2 & H3). unfold bytesToProperUpdate.
  rewrite H1. cbn. rewrite H2, H3. cbn. now destruct (processMessageAttachments update).
Qed.

(** The discriminators for which [getAttachmentType] has a constructor
    are exactly the nine constants of its switch. *)
Lemma getAttachmentType_None (t : string) :
  getAttachmentType t = None <->
  ~ In t [schemes.AttachmentAudio; schemes.AttachmentContact; schemes.AttachmentFile;
          schemes.AttachmentImage; schemes.AttachmentKeyboard; schemes.AttachmentLocation;
          schemes.AttachmentShare; schemes.AttachmentSticker; schemes.AttachmentVideo].
Proof.
  unfold getAttachmentType. cbn [In].
  repeat match goal with
         | |- context [String.eqb t ?c] =>
             destruct (String.eqb_spec t c) as [->|?];
             [split; [discriminate | intro H; exfalso; apply H; tauto]|]
         end.
  split; [|reflexivity]. intros _ H. repeat destruct H as [H|H]; try congruence.
Qed.

(** The discriminators for which [getUpdateType] has a constructor are
    exactly the ten constants of its switch. *)
Lemma getUpdateType_None (t : string) :
  getUpdateType t = None <->
  ~ In t [schemes.TypeMessageCallback; schemes.TypeMessageCreated;
          schemes.TypeMessageRemoved; schemes.TypeMessageEdited; schemes.TypeBotAdded;
          schemes.TypeBotRemoved; schemes.TypeUserAdded; schemes.TypeUserRemoved;
          schemes.TypeBotStarted; schemes.TypeChatTitleChanged].
Proof.
  unfold getUpdateType. cbn [In].
  repeat match goal with
         | |- context [String.eqb t ?c] =>
             destruct (String.eqb_spec t c) as [->|?];
             [split; [discriminate | intro H; exfalso; apply H; tauto]|]
         end.
  split; [|reflexivity]. intros _ H. repeat destruct H as [H|H]; try congruence.
Qed.

(** The two errors [bytesToProperAttachment] can return: the failure of
    the base decode, or the failure of the decode into the recognized
    variant, which names the variant's type. *)
Lemma bytesToProperAttachment_error (data : bytes) (e : error) :
  bytesToProperAttachment data = inl e ->
  (exists err,
     Unmarshal_Attachment data = inl err /\
     e = Errorf_w "failed to unmarshal base attachment" err) \/
  (exists base err,
     Unmarshal_Attachment data = inr base /\
     e = Errorf_w ("failed to unmarshal attachment of type " ++ GetAttachmentType base) err).
Proof.
  unfold bytesToProperAttachment.
  destruct (Unmarshal_Attachment data) as [err|base]; cbn.
  - intros [= <-]. left. now exists err.
  - destruct (getAttachmentType (GetAttachmentType base)) as [c|]; [|discriminate].
    destruct (Unmarshal_into_Attachment data (c tt)) as [err|att]; cbn; [|discriminate].
    intros [= <-]. right. now exists base, err.
Qed.

(** C7.  [bytesToProperAttachment] does not fail on an unrecognized
    discriminator: when the base decode yields a discriminator for which
    [getAttachmentType] has no constructor, the result is the base
    attachment record, carrying that discriminator, and no error; when the
    discriminator is recognized and the decode into the variant fails, the
    failure is returned as an error that wraps it and names the type. *)
Theorem bytesToProperAttachment_unknown_type (data : bytes) (base : Attachment) :
  Unmarshal_Attachment data = inr base ->
  (getAttachmentType (GetAttachmentType base) = None ->
     bytesToProperAttachment data = inr (BaseAttachment base)) /\
  (forall constructor err,
     getAttachmentType (GetAttachmentType base) = Some constructor ->
     Unmarshal_into_Attachment data (constructor tt) = inl err ->
     bytesToProperAttachment data =
       inl (Errorf_w ("failed to unmarshal attachment of type " ++ GetAttachmentType base)
              err)).
Proof.
  intro Hbase. unfold bytesToProperAttachment. rewrite Hbase. cbn. split.
  - now intros ->.
  - intros c err -> Herr. now rewrite Herr.
Qed.
End DecoderFacts.

(** ** Attachment resolution inside message updates *)

Section MessageAttachments.
Context {bytes fields : Type} `{J : JSON bytes fields}.

Local Abbreviation UpdateI := (UpdateInterface bytes fields).
Local Abbreviation AttachmentI := (AttachmentInterface fields).
Local Abbreviation resolves raw att := (bytesToProperAttachment raw = inr att).

(** C2 (as amended).  For a message-created or message-edited update
    whose body has no raw attachments (a nil list) and whose link's
    nested message has some, the attachments are resolved from the linked
    message, in order, and appended to the linked message's own attachment
    list; the top-level body is left as it is.  When the body has a raw
    list of its own, that list is resolved into the body and the link is
    left as it is: the two sources are never combined. *)
Theorem link_attachment_fallback
    (mk : Update -> Message bytes fields -> UpdateI) (u : Update)
    (m : Message bytes fields) :
  messageUpdate mk ->
  (forall link raws atts,
     RawAttachments (Body m) = None ->
     Link m = Some link ->
     RawAttachments (LinkedMessage_Message link) = Some raws ->
     Forall2 (fun raw att => resolves raw att) raws atts ->
     processMessageAttachments (mk u m) =
       inr (mk u {| Body := Body m;
                    Link := Some
                      {| LinkedMessage_Message :=
                           set_Attachments (LinkedMessage_Message link)
                             (Attachments (LinkedMessage_Message link) ++ atts);
                         LinkFields := LinkFields link |};
                    MessageFields := MessageFields m |})) /\
  (forall raws atts,
     RawAttachments (Body m) = Some raws ->
     Forall2 (fun raw att => resolves raw att) raws atts ->
     processMessageAttachments (mk u m) =
       inr (mk u {| Body := set_Attachments (Body m) (Attachments (Body m) ++ atts);
                    Link := Link m;
                    MessageFields := MessageFields m |})).
Proof.
  intro Hmk. split.
  - intros link raws atts Hb Hl Hr F.
    rewrite (processMessageAttachments_message u m Hmk).
    unfold processMessage. rewrite Hb, Hl, Hr, (convertRawAttachments_ok F). reflexivity.
  - intros raws atts Hb F.
    rewrite (processMessageAttachments_message u m Hmk).
    unfold processMessage. rewrite Hb, (convertRawAttachments_ok F). reflexivity.
Qed.

(** C8.  When the raw-attachment list that is resolved for a message
    update (the body's, or the linked message's when the body has none)
    contains an attachment that does not decode, [bytesToProperUpdate]
    returns no update but an error: the error of the first attachment of
    the list that fails, wrapped by [convertRawAttachments] and by
    [bytesToProperUpdate]; that error is the failure of the attachment's
    base decode or, with the attachment's type in its text, of its decode
    into the variant.  Conversely, when [bytesToProperUpdate] returns
    an update, every raw attachment of the list has been decoded and
    appended, one for one and in order: none is skipped. *)
Theorem attachment_failure_aborts_update
    (a : Api) (data : bytes) (mk : Update -> Message bytes fields -> UpdateI)
    (u : Update) (m : Message bytes fields) (raws : list bytes) :
  messageUpdate mk ->
  unmarshalsTo a data (mk u m) ->
  (RawAttachments (Body m) = Some raws \/
   (RawAttachments (Body m) = None /\
    exists link, Link m = Some link /\
                 RawAttachments (LinkedMessage_Message link) = Some raws)) ->
  (forall (bad : bytes) (e : error),
     In bad raws ->
     bytesToProperAttachment bad = inl e ->
     exists pre first post e',
       raws = pre ++ first :: post /\
       Forall (fun raw => exists att, resolves raw att) pre /\
       bytesToProperAttachment first = inl e' /\
       bytesToProperUpdate a data =
         inl (Errorf_w "failed to process message attachments"
                (Errorf_w "failed to process attachment" e')) /\
       ((exists err, e' = Errorf_w "failed to unmarshal base attachment" err) \/
        (exists base err,
           Unmarshal_Attachment first = inr base /\
           e' = Errorf_w ("failed to unmarshal attachment of type "
                          ++ GetAttachmentType base) err))) /\
  (forall update : UpdateI,
     bytesToProperUpdate a data = inr update ->
     exists atts,
       Forall2 (fun raw att => resolves raw att) raws atts /\
       (RawAttachments (Body m) = Some raws ->
          bodyAttachments (inr update) = Some (Attachments (Body m) ++ atts)) /\
       (forall link,
          RawAttachments (Body m) = None -> Link m = Some link ->
          linkAttachments (inr update) =
            Some (Attachments (LinkedMessage_Message link) ++ atts))).
Proof.
  intros Hmk Hdec Hsrc.
  rewrite (bytesToProperUpdate_unmarshalled Hdec).
  rewrite (processMessageAttachments_message u m Hmk).
  unfold processMessage, convertRawAttachments. split.
  - intros bad e Hin Hbad.
    destruct (convertRawAttachments_loop_fails raws [] bad Hin Hbad)
      as (pre & first & post & e' & Hsplit & Hpre & Hfirst & Hloop).
    exists pre, first, post, e'. split; [|split; [|split; [|split]]]; auto.
    + destruct Hsrc as [Hb | (Hb & link & Hl & Hr)].
      * rewrite Hb, Hloop. reflexivity.
      * rewrite Hb, Hl, Hr, Hloop. reflexivity.
    + destruct (bytesToProperAttachment_error first Hfirst)
        as [(err & _ & ->) | (base & err & Hbase & ->)]; [left | right]; eauto.
  - intros update Hok.
    destruct Hsrc as [Hb | (Hb & link & Hl & Hr)].
    + rewrite Hb in Hok.
      destruct (convertRawAttachments_loop raws []) as [e|l] eqn:Hloop; [discriminate|].
      destruct (convertRawAttachments_loop_inv _ _ Hloop) as (atts & -> & F).
      cbn in Hok. injection Hok as <-. exists atts. split; [exact F|]. split.
      * intros _. now destruct Hmk as [-> | ->].
      * intros link Hnone. congruence.
    + rewrite Hb, Hl, Hr in Hok.
      destruct (convertRawAttachments_loop raws []) as [e|l] eqn:Hloop; [discriminate|].
      destruct (convertRawAttachments_loop_inv _ _ Hloop) as (atts & -> & F).
      cbn in Hok. injection Hok as <-. exists atts. split; [exact F|]. split.
      * intro Hsome. congruence.
      * intros link' _ Hl'. assert (link' = link) as -> by congruence.
        now destruct Hmk as [-> | ->].
Qed.

(** C10.  When the body's raw-attachment list is present but empty, the
    body branch is taken: nothing is appended and the update comes back
    as it went in, whatever the link carries (its raw attachments are not
    resolved).  The branch is selected by the presence of the list, not
    by its length. *)
Theorem empty_raw_attachments_take_body_branch
    (mk : Update -> Message bytes fields -> UpdateI) (u : Update)
    (m : Message bytes fields) :
  messageUpdate mk ->
  RawAttachments (Body m) = Some [] ->
  processMessageAttachments (mk u m) = inr (mk u m).
Proof.
  intros Hmk Hb.
  rewrite (processMessageAttachments_message u m Hmk).
  unfold processMessage. rewrite Hb. cbn.
  rewrite app_nil_r, set_Attachments_same. now destruct m.
Qed.
End MessageAttachments.

(** ** Fetching a page *)

Section FetchFacts.
Context {bytes fields : Type} `{J : JSON bytes fields} `{K : Consts}.

Local Abbreviation Event := (@Event bytes fields).

Lemma requests_app (t1 t2 : list Event) : requests (t1 ++ t2) = requests t1 ++ requests t2.
Proof. induction t1 as [|[] t1 IH]; cbn; congruence. Qed.

Lemma waits_app (t1 t2 : list Event) : waits (t1 ++ t2) = waits t1 ++ waits t2.
Proof. induction t1 as [|[] t1 IH]; cbn; congruence. Qed.

Lemma logged_app (t1 t2 : list Event) : logged (t1 ++ t2) = logged t1 ++ logged t2.
Proof. induction t1 as [|[] t1 IH]; cbn; congruence. Qed.

Lemma sent_app (t1 t2 : list Event) : sent (t1 ++ t2) = sent t1 ++ sent t2.
Proof. induction t1 as [|[] t1 IH]; cbn; congruence. Qed.

Lemma sent_map_send (us : list (UpdateInterface bytes fields)) :
  sent (map (fun u => Ev_send u) us) = us /\
  logged (map (fun u => Ev_send u) us) = [] /\
  requests (map (fun u => Ev_send u) us) = [].
Proof. induction us as [|u us (IH1 & IH2 & IH3)]; cbn; repeat split; congruence. Qed.

(** A nil [params] is replaced by the zero value, in [getUpdates] as in
    [getUpdatesWithRetry]. *)
Lemma getUpdates_nil_params ctxErr (response : error + ReadCloser bytes) :
  getUpdates ctxErr None response = getUpdates ctxErr (Some zero_UpdatesParams) response.
Proof. reflexivity. Qed.

(** One call of [getUpdates] issues exactly one request, with the query
    of its parameters, never sleeps and never sends. *)
Lemma getUpdates_trace ctxErr (params : UpdatesParams) (response : error + ReadCloser bytes) :
  let tr := snd (getUpdates ctxErr (Some params) response) in
  requests tr = [updatesValues params] /\ waits tr = [] /\ sent tr = [].
Proof.
  unfold getUpdates, closeBody.
  destruct response as [err|body]; cbn.
  - destruct (errors_As_TimeoutError err); [now cbn|].
    destruct (errors_Is err context_Canceled || errors_Is err context_DeadlineExceeded);
      now cbn.
  - destruct (ReadAll body) as [err|data]; [destruct (Close body); now cbn|].
    destruct (Unmarshal_UpdateList data); destruct (Close body); now cbn.
Qed.

(** C5.  When the transport's error is a [TimeoutError] (anywhere in its
    chain), [getUpdates] returns a page with zero updates and a nil
    marker, and a nil error; nothing is logged. *)
Theorem getUpdates_timeout_is_empty_page
    (ctxErr : option Sentinel) (params : option UpdatesParams) (err : error) :
  errors_As_TimeoutError err = true ->
  exists page : UpdateList bytes,
    fst (getUpdates ctxErr params (inl err)) = (Some page, None) /\
    Updates page = [] /\ Marker page = None /\
    logged (snd (getUpdates ctxErr params (inl err))) = [].
Proof.
  intro H. exists empty_UpdateList. unfold getUpdates. rewrite H. now cbn.
Qed.

Lemma transient_test (err : error) :
  transient err ->
  errors_Is err context_Canceled || errors_Is err context_DeadlineExceeded = false.
Proof. intros [-> ->]. reflexivity. Qed.

(** The shape of every run of the retry loop: at most [remaining]
    attempts, each one request, and between attempt [i] and attempt
    [i+1] (counted from 0) one wait of [retryWait i]. *)
Lemma retryLoop_shape (params : UpdatesParams) (env : nat -> Attempt) :
  forall (remaining attempt : nat) (lastErr : option error),
    (remaining + attempt = maxRetries)%nat ->
    let tr := snd (retryLoop remaining attempt lastErr (Some params) env) in
    exists k : nat,
      (k <= remaining)%nat /\ (0 < remaining -> 0 < k)%nat /\
      requests tr = repeat (updatesValues params) k /\
      waits tr = map retryWait (seq attempt (k - 1)).
Proof.
  induction remaining as [|n IH]; intros attempt lastErr Hsum; cbn.
  - exists O. repeat split; auto; lia.
  - destruct (getUpdates_trace (ctx_Err (env attempt)) params (response (env attempt)))
      as (Hreq & Hwait & _).
    destruct (getUpdates (ctx_Err (env attempt)) (Some params) (response (env attempt)))
      as [[result lastErr'] tr0]. cbn in Hreq, Hwait.
    destruct lastErr' as [err|].
    2:{ exists 1%nat. cbn. repeat split; auto; lia. }
    destruct (errors_Is err context_Canceled || errors_Is err context_DeadlineExceeded).
    { exists 1%nat. cbn. repeat split; auto; lia. }
    destruct (IH (S attempt) (Some err) ltac:(lia)) as (k & Hk & Hpos & Hr & Hw).
    destruct (Z.of_nat attempt <? Z.of_nat maxRetries - 1) eqn:Hlast.
    + destruct (wait_Done (env attempt)).
      { exists 1%nat. cbn. rewrite requests_app, waits_app, Hreq, Hwait. cbn.
        repeat split; auto; lia. }
      destruct (retryLoop n (S attempt) (Some err) (Some params) env) as [r tr'].
      cbn in Hr, Hw |- *.
      apply Z.ltb_lt in Hlast.
      assert (0 < k)%nat as Hk0 by (apply Hpos; lia).
      exists (S k). rewrite requests_app, waits_app, Hreq, Hwait. cbn.
      rewrite Hr, Hw. repeat split; try lia.
      destruct k as [|k']; [lia|]. cbn. now rewrite Nat.sub_0_r.
    + destruct (retryLoop n (S attempt) (Some err) (Some params) env) as [r tr'].
      cbn in Hr, Hw |- *.
      apply Z.ltb_ge in Hlast.
      assert (n = 0)%nat as -> by lia.
      assert (k = 0)%nat as -> by lia.
      exists 1%nat. rewrite requests_app, waits_app, Hreq, Hwait, Hr, Hw. cbn.
      repeat split; auto; lia.
Qed.

(** When every attempt fails with a transient error and no wait is cut
    short, the loop runs to its end and returns the terminal error
    around the last attempt's error. *)
Lemma retryLoop_exhausted (params : UpdatesParams) (env : nat -> Attempt)
    (errs : nat -> error) :
  (forall i, (i < maxRetries)%nat ->
     snd (fst (getUpdates (ctx_Err (env i)) (Some params) (response (env i)))) = Some (errs i)
     /\ transient (errs i)) ->
  (forall i, (i + 1 < maxRetries)%nat -> wait_Done (env i) = None) ->
  forall (remaining attempt : nat) (lastErr : option error),
    (remaining + attempt = maxRetries)%nat ->
    let run := retryLoop remaining attempt lastErr (Some params) env in
    fst run =
      (None, Some (failedAfter match remaining with
                               | O => lastErr
                               | S _ => Some (errs (maxRetries - 1)%nat)
                               end)) /\
    List.length (requests (snd run)) = remaining /\
    waits (snd run) = map retryWait (seq attempt (remaining - 1)).
Proof.
  intros Herr Hwait.
  induction remaining as [|n IH]; intros attempt lastErr Hsum; cbn.
  - repeat split; reflexivity.
  - destruct (Herr attempt ltac:(lia)) as (He & Ht).
    destruct (getUpdates_trace (ctx_Err (env attempt)) params (response (env attempt)))
      as (Hreq & Hw0 & _).
    destruct (getUpdates (ctx_Err (env attempt)) (Some params) (response (env attempt)))
      as [[result lastErr'] tr0]. cbn in He, Hreq, Hw0. subst lastErr'.
    rewrite (transient_test Ht).
    destruct (IH (S attempt) (Some (errs attempt)) ltac:(lia)) as (Hres & Hlen & Hws).
    destruct (Z.of_nat attempt <? Z.of_nat maxRetries - 1) eqn:Hlast.
    + apply Z.ltb_lt in Hlast. rewrite (Hwait attempt ltac:(lia)).
      destruct (retryLoop n (S attempt) (Some (errs attempt)) (Some params) env) as [r tr'].
      cbn in Hres, Hlen, Hws |- *. rewrite requests_app, waits_app, Hreq, Hw0. cbn.
      rewrite Hlen, Hws. destruct n as [|n']; [lia|].
      repeat split; auto. cbn. now rewrite Nat.sub_0_r.
    + apply Z.ltb_ge in Hlast. assert (n = 0)%nat as -> by lia.
      cbn in Hres, Hlen, Hws |- *. rewrite app_nil_r, Hreq. cbn.
      replace (maxRetries - 1)%nat with attempt by lia.
      repeat split; auto.
Qed.
End FetchFacts.

(** ** Retry with backoff *)

Section RetryFacts.
Context {bytes fields : Type} `{J : JSON bytes fields} `{K : Consts}.

Lemma retryWait_seconds (i : nat) :
  (i < 4)%nat -> retryWait i = 2 ^ Z.of_nat i * Second.
Proof.
  intro H. destruct i as [|[|[|[|i]]]]; try reflexivity. lia.
Qed.

(** C4.  With [maxRetries = 5]: every call of [getUpdatesWithRetry]
    makes between one and five attempts, and before attempt [i+1]
    (attempts counted from 0) it has waited [2^i] seconds, so 1s, 2s, 4s
    (and 8s) between attempts 1 and 2, 2 and 3, 3 and 4 (and 4 and 5).
    When all five attempts fail with a transient error and no wait is
    cancelled, it makes exactly five attempts and returns the error
    [failed after 5 attempts: ...] that wraps the error of the last
    attempt. *)
Theorem getUpdatesWithRetry_backoff
    (params : option UpdatesParams) (env : nat -> @Attempt bytes) :
  maxRetries = 5%nat ->
  let run := @getUpdatesWithRetry bytes fields J K params env in
  (exists k : nat,
     (1 <= k <= 5)%nat /\
     List.length (requests (snd run)) = k /\
     waits (snd run) = map (fun i => 2 ^ Z.of_nat i * Second) (seq 0 (k - 1))) /\
  (forall errs : nat -> error,
     (forall i, (i < 5)%nat ->
        snd (fst (@getUpdates bytes fields J K (ctx_Err (env i)) params (response (env i))))
          = Some (errs i) /\ transient (errs i)) ->
     (forall i, (i < 4)%nat -> wait_Done (env i) = None) ->
     fst run = (None, Some (Errorf_w "failed after 5 attempts" (errs 4%nat))) /\
     Error_string (Errorf_w "failed after 5 attempts" (errs 4%nat)) =
       ("failed after 5 attempts: " ++ Error_string (errs 4%nat))%string /\
     List.length (requests (snd run)) = 5%nat /\
     waits (snd run) = [1 * Second; 2 * Second; 4 * Second; 8 * Second]).
Proof.
  intros Hmax run. subst run. unfold getUpdatesWithRetry.
  set (p := match params with Some p => p | None => zero_UpdatesParams end).
  replace (match params with Some p0 => Some p0 | None => Some zero_UpdatesParams end)
    with (Some p) by (now destruct params).
  split.
  - destruct (retryLoop_shape p env maxRetries 0 None ltac:(lia)) as (k & Hk & Hpos & Hr & Hw).
    assert (0 < k)%nat by (apply Hpos; lia).
    exists k. rewrite Hr, Hw, repeat_length. repeat split; try lia.
    apply map_ext_in. intros i Hi. apply in_seq in Hi. apply retryWait_seconds. lia.
  - intros errs Herr Hwait.
    assert (forall c r, getUpdates c params r = getUpdates c (Some p) r) as Hp
      by (intros; subst p; now destruct params).
    destruct (@retryLoop_exhausted bytes fields J K p env errs) with
      (remaining := maxRetries) (attempt := 0%nat) (lastErr := @None error)
      as (Hres & Hlen & Hws).
    + intros i Hi. rewrite <- Hp. apply Herr. lia.
    + intros i Hi. apply Hwait. lia.
    + lia.
    + rewrite Hres, Hlen, Hws, Hmax. unfold failedAfter. rewrite Hmax.
      repeat split; reflexivity.
Qed.
End RetryFacts.

(** ** The long-poll loop *)

Section LoopFacts.
Context {bytes fields : Type} `{J : JSON bytes fields} `{K : Consts}.

Local Abbreviation UpdateI := (UpdateInterface bytes fields).
Local Abbreviation Event := (@Event bytes fields).
Local Abbreviation Fetcher := (@Fetcher bytes fields).
Local Abbreviation Round := (@Round bytes).
Local Abbreviation decodes a raw u := (bytesToProperUpdate a raw = inr u).


(** Without cancellation the loop over a page runs to its end; the
    sends of a concatenation are the sends of its parts. *)
Lemma sendUpdates_None (a : Api) (l : list bytes) :
  snd (sendUpdates (fields := fields) a l None) = false.
Proof.
  induction l as [|raw l IH]; cbn; [reflexivity|].
  destruct (bytesToProperUpdate a raw); [exact IH|].
  destruct (sendUpdates a l None) as [t b]. exact IH.
Qed.

Lemma sendUpdates_app (a : Api) (l1 l2 : list bytes) :
  sendUpdates a (l1 ++ l2) None =
    (fst (sendUpdates a l1 None) ++ fst (sendUpdates a l2 None), false).
Proof.
  induction l1 as [|raw l1 IH]; cbn.
  - pose proof (sendUpdates_None a l2) as H.
    destruct (sendUpdates a l2 None) as [t b]. cbn in H |- *. now subst b.
  - destruct (bytesToProperUpdate a raw); [exact IH|].
    rewrite IH. now destruct (sendUpdates a l1 None) as [t b].
Qed.

Lemma sendUpdates_all (a : Api) (raws : list bytes) (us : list UpdateI) :
  Forall2 (fun raw u => decodes a raw u) raws us ->
  sendUpdates a raws None = (map (fun u => Ev_send u) us, false).
Proof.
  induction 1 as [|raw u raws us Hd _ IH]; cbn; [reflexivity|].
  now rewrite Hd, IH.
Qed.

(** The item that does not decode is passed over: no send, no log line. *)
Lemma sendUpdates_skips (a : Api) (pre post : list bytes) (bad : bytes)
    (us_pre us_post : list UpdateI) (e : error) :
  bytesToProperUpdate a bad = inl e ->
  Forall2 (fun raw u => decodes a raw u) pre us_pre ->
  Forall2 (fun raw u => decodes a raw u) post us_post ->
  sendUpdates a (pre ++ bad :: post) None =
    (map (fun u => Ev_send u) (us_pre ++ us_post), false).
Proof.
  intros Hbad Hpre Hpost.
  rewrite (sendUpdates_app a pre (bad :: post)), (sendUpdates_all a Hpre).
  cbn. rewrite Hbad, (sendUpdates_all a Hpost). cbn. now rewrite map_app.
Qed.


(** A round in which the fetch returns a page and nothing is cancelled. *)
Lemma step_page (a : Api) (f : Fetcher) (r : Round) (ul : UpdateList bytes)
    (tr : list Event) :
  live f -> select_Done r = false -> sends r = None ->
  getUpdatesWithRetry (Some (pollParams a (marker f))) (attempts r) = ((Some ul, None), tr) ->
  step a f r =
    {| phase := match Updates ul with [] => Idle | _ :: _ => Draining end;
       marker := match Updates ul, Marker ul with
                 | _ :: _, Some m => m
                 | _, _ => marker f
                 end;
       trace := trace f ++ tr ++ fst (sendUpdates a (Updates ul) None) |}.
Proof.
  intros Hlive Hsel Hsends Hfetch.
  assert (step a f r = drain a f r) as ->
    by (unfold step; destruct Hlive as [-> | ->]; [now rewrite Hsel | reflexivity]).
  unfold drain. rewrite Hfetch, Hsends.
  destruct (Updates ul) as [|raw rest] eqn:Hup; [now rewrite app_nil_r|].
  pose proof (sendUpdates_None a (raw :: rest)) as Hret.
  destruct (sendUpdates a (raw :: rest) None) as [evs returned]. cbn in Hret. subst returned.
  cbn. now destruct (Marker ul).
Qed.



End LoopFacts.

(** ** The cursor and the stream *)

Section CursorFacts.
Context {bytes fields : Type} `{J : JSON bytes fields} `{K : Consts}.

Local Abbreviation UpdateI := (UpdateInterface bytes fields).
Local Abbreviation Event := (@Event bytes fields).
Local Abbreviation Fetcher := (@Fetcher bytes fields).
Local Abbreviation Round := (@Round bytes).
Local Abbreviation query a m := (updatesValues (pollParams a m)).



(** C3 (as amended).  When a fetched page holds one item whose
    discriminator is unknown among items that decode, and nothing is
    cancelled, the round sends exactly the decoded updates of the other
    items, in page order; the unknown item is passed over without any
    log line; the loop goes on: the page's marker is adopted and the next
    page is fetched in the same tick. *)
Theorem unknown_update_skipped_silently
    (a : Api) (f : Fetcher) (r : Round) (page : UpdateList bytes)
    (pre post : list bytes) (bad : bytes) (base : Update)
    (us_pre us_post : list UpdateI) :
  live f ->
  answers a (marker f) r page ->
  Updates page = pre ++ bad :: post ->
  Unmarshal_Update bad = inr base ->
  getUpdateType (GetUpdateType base) = None ->
  Forall2 (fun raw u => bytesToProperUpdate a raw = inr u) pre us_pre ->
  Forall2 (fun raw u => bytesToProperUpdate a raw = inr u) post us_post ->
  bytesToProperUpdate a bad = inl (Errorf ("unknown update type: " ++ GetUpdateType base)) /\
  exists fetched : list Event,
    getUpdatesWithRetry (Some (pollParams a (marker f))) (attempts r)
      = ((Some page, None), fetched) /\
    step a f r =
      {| phase := Draining;
         marker := match Marker page with Some m => m | None => marker f end;
         trace := trace f ++ fetched ++ map (fun u => Ev_send u) (us_pre ++ us_post) |} /\
    sent (map (fun u => Ev_send u) (us_pre ++ us_post)) = us_pre ++ us_post /\
    logged (map (fun u => Ev_send u) (us_pre ++ us_post)) = [].
Proof.
  intros Hlive (Hsel & Hsends & tr & Hfetch) Hpage Hbase Hunknown Hpre Hpost.
  assert (bytesToProperUpdate a bad
          = inl (Errorf ("unknown update type: " ++ GetUpdateType base))) as Hbad
    by (unfold bytesToProperUpdate; rewrite Hbase; cbn; now rewrite Hunknown).
  split; [exact Hbad|].
  exists tr. split; [exact Hfetch|].
  rewrite (@step_page _ _ _ _ a f r page tr Hlive Hsel Hsends Hfetch), Hpage.
  rewrite (@sendUpdates_skips _ _ _ a pre post bad us_pre us_post _ Hbad Hpre Hpost). cbn [fst].
  destruct (sent_map_send (us_pre ++ us_post)) as (Hs & Hl & _).
  repeat split; auto.
  destruct pre; reflexivity.
Qed.
End CursorFacts.

(** ** The webhook handler *)

Section WebhookFacts.
Context {bytes fields : Type} `{J : JSON bytes fields}.

Local Abbreviation Chan := (@Chan bytes fields).
Local Abbreviation Request := (@Request bytes).

(** C6 (as amended).  The handler answers 405 to a method other than
    POST, 400 when the body cannot be read or does not decode, 200 when
    the update of a POST is taken by the channel (by a waiting receiver
    or by the buffer), and 503 when the channel cannot take it at once;
    in that case, as in the 400 and 405 cases, the channel is left as it
    was.  On an open channel the handler always answers: the offer never
    waits. *)
Theorem GetHandler_statuses (a : Api) (updates : Chan) (r : Request) :
  (Method r <> "POST" ->
     GetHandler a updates r = Response 405 ("Method not allowed" ++ LF) updates) /\
  (Method r = "POST" ->
     (forall err, RequestBody r = inl err ->
        GetHandler a updates r =
          Response 400 ("Failed to read request body" ++ LF) updates) /\
     (forall body err,
        RequestBody r = inr body -> bytesToProperUpdate a body = inl err ->
        GetHandler a updates r = Response 400 ("Failed to parse update" ++ LF) updates) /\
     (forall body update,
        RequestBody r = inr body -> bytesToProperUpdate a body = inr update ->
        closed updates = false ->
        (forall n, receivers updates = S n ->
           GetHandler a updates r =
             Response 200 ""
               {| capacity := capacity updates; buffer := buffer updates;
                  receivers := n; handed := handed updates ++ [update];
                  closed := false |}) /\
        (receivers updates = O ->
         (List.length (buffer updates) < capacity updates)%nat ->
           GetHandler a updates r =
             Response 200 ""
               {| capacity := capacity updates; buffer := buffer updates ++ [update];
                  receivers := O; handed := handed updates; closed := false |}) /\
        (receivers updates = O ->
         (capacity updates <= List.length (buffer updates))%nat ->
           GetHandler a updates r =
             Response 503 ("Updates channel is full" ++ LF) updates))) /\
  (closed updates = false ->
     exists code text updates', GetHandler a updates r = Response code text updates').
Proof.
  unfold GetHandler, http_Error. split; [|split].
  - intro H. apply String.eqb_neq in H. now rewrite H.
  - intro H. apply String.eqb_eq in H. rewrite H. cbn. split; [|split].
    + now intros err ->.
    + now intros body err -> ->.
    + intros body update -> -> Hopen. unfold trySend. rewrite Hopen. split; [|split].
      * now intros n ->.
      * intros -> Hroom. apply Nat.ltb_lt in Hroom. now rewrite Hroom.
      * intros -> Hfull. apply Nat.ltb_ge in Hfull. now rewrite Hfull.
  - intro Hopen. destruct (negb (Method r =? "POST")%string); [eauto|].
    destruct (RequestBody r) as [err|body]; [eauto|].
    destruct (bytesToProperUpdate a body) as [err|update]; [eauto|].
    unfold trySend. rewrite Hopen.
    destruct (receivers updates); [|eauto].
    destruct (List.length (buffer updates) <? capacity updates)%nat; eauto.
Qed.
End WebhookFacts.

(** ** The low-level debug send *)

Section DebugsFacts.
Context {bytes fields : Type} `{J : JSON bytes fields} `{K : Consts}.

(** C9.  When the request of [sendMessage] succeeds and the decoding of
    the response into the error envelope fails (the body cannot be read,
    or what was read does not decode), [sendMessage] returns nil: the
    decode error is dropped, and the caller gets what it gets for a
    response that decodes to an envelope with an empty code. *)
Theorem sendMessage_masks_decode_error
    (reset : bool) (chatID userID : Z) (message : string)
    (body : ReadCloser bytes) (err : error) :
  decodeError body = inl err ->
  fst (@sendMessage bytes fields J K reset chatID userID message (inr body)) = None /\
  (forall (ok : ReadCloser bytes) (text : string),
     decodeError ok = inr ("", text) ->
     fst (@sendMessage bytes fields J K reset chatID userID message (inr body)) =
     fst (@sendMessage bytes fields J K reset chatID userID message (inr ok))).
Proof.
  intro H. unfold sendMessage. rewrite H. split; [reflexivity|].
  intros ok text Hok. now rewrite Hok.
Qed.
End DebugsFacts.

(* ===================================================================== *)
(** * Concrete runs                                                        *)
(* ===================================================================== *)

Section Runs.
Import Wire Examples.


(** C2 as the spec words it does not hold: after decoding a
    message-edited update whose only raw attachments are the linked
    message's, the top-level body's attachment list is empty while the
    linked message's holds the resolved attachment. *)
Lemma link_fallback_leaves_body_list :
  linkAttachments (bytesToProperUpdate api edited_with_link) = Some [resolved_audio] /\
  bodyAttachments (bytesToProperUpdate api edited_with_link) = Some [] /\
  bodyAttachments (bytesToProperUpdate api edited_with_link) <>
    linkAttachments (bytesToProperUpdate api edited_with_link).
Proof. repeat split. discriminate. Qed.

Lemma link_attachment_fallback_witness :
  processMessageAttachments (MessageEditedUpdate edited (quoting_message None)) =
    inr (MessageEditedUpdate edited
           {| Body := Body (quoting_message None);
              Link := Some {| LinkedMessage_Message :=
                                {| Attachments := [resolved_audio];
                                   RawAttachments := Some [audio];
                                   BodyFields := [] |};
                              LinkFields := [] |};
              MessageFields := [] |}).
Proof.
  apply (proj1 (@link_attachment_fallback payload members json
                  (@MessageEditedUpdate payload members) edited (quoting_message None)
                  (or_intror eq_refl))
           {| LinkedMessage_Message :=
                {| Attachments := []; RawAttachments := Some [audio]; BodyFields := [] |};
              LinkFields := [] |}
           [audio] [resolved_audio]); try reflexivity.
  repeat constructor.
Defined.

(** C3 as the spec words it does not hold: the page with an unknown item
    between two valid ones yields the two valid updates and not a single
    log line. *)
Lemma unknown_update_leaves_no_log_line :
  sent (trace (GetUpdates api [round answer_mixed])) = [started; added] /\
  ~ (exists line, In line (logged (trace (GetUpdates api [round answer_mixed])))).
Proof. split; [reflexivity|]. intros (line & H). exact H. Qed.

Lemma unknown_update_skipped_silently_witness :
  step api start (round answer_mixed) =
    {| phase := Draining; marker := 9;
       trace := [Ev_request "GET" "updates" [("limit", "50"); ("timeout", "30")] false None;
                 Ev_send started; Ev_send added] |}.
Proof.
  destruct (@unknown_update_skipped_silently payload members json consts api start
              (round answer_mixed) mixed_page [bot_started] [user_added]
              totally_unknown {| UpdateType := "totally_unknown"; DebugRaw := "" |}
              [started] [added])
    as (_ & fetched & Hfetch & Hstep & _).
  - left. reflexivity.
  - repeat split. eexists. reflexivity.
  - reflexivity.
  - reflexivity.
  - reflexivity.
  - repeat constructor.
  - repeat constructor.
  - rewrite Hstep. vm_compute in Hfetch. injection Hfetch as <-. reflexivity.
Defined.

(** C4 against a transport that always refuses the connection. *)
Lemma getUpdatesWithRetry_backoff_witness :
  fst (getUpdatesWithRetry None (always unreachable)) =
    (None, Some (Errorf_w "failed after 5 attempts"
                   (Errorf_w "failed to get updates" (Errorf "connection refused")))) /\
  waits (snd (getUpdatesWithRetry None (always unreachable))) =
    [1 * Second; 2 * Second; 4 * Second; 8 * Second].
Proof.
  destruct (proj2 (@getUpdatesWithRetry_backoff payload members json consts None
                     (always unreachable) eq_refl)
              (fun _ => Errorf_w "failed to get updates" (Errorf "connection refused")))
    as (Hres & _ & _ & Hwaits).
  - intros i _. repeat split.
  - intros i _. reflexivity.
  - split; [exact Hres | exact Hwaits].
Defined.

(** C5 for a timeout wrapped by the transport. *)
Lemma getUpdates_timeout_is_empty_page_witness :
  exists p : UpdateList payload,
    fst (getUpdates None (Some (pollParams api 5))
           (inl (Errorf_w "GET updates" (TimeoutError "no update within the poll timeout"))))
      = (Some p, None) /\
    Updates p = [] /\ Marker p = None /\
    logged (snd (getUpdates None (Some (pollParams api 5))
                   (inl (Errorf_w "GET updates"
                           (TimeoutError "no update within the poll timeout"))))) = [].
Proof.
  apply (@getUpdates_timeout_is_empty_page payload members json consts None
           (Some (pollParams api 5))
           (Errorf_w "GET updates" (TimeoutError "no update within the poll timeout"))).
  reflexivity.
Defined.

(** C6 as the spec words it does not hold: a GET is answered with 405,
    not with 400. *)
Lemma wrong_method_is_not_400 :
  GetHandler api (queue []) {| Method := "GET"; RequestBody := inr bot_started |} =
    Response 405 ("Method not allowed" ++ LF) (queue []) /\
  ~ (exists text updates,
       GetHandler api (queue []) {| Method := "GET"; RequestBody := inr bot_started |} =
         Response 400 text updates).
Proof. split; [reflexivity|]. intros (text & updates & H). discriminate H. Qed.

(** C6 (as amended) on a full queue and on a wrong method. *)
Lemma GetHandler_statuses_witness :
  GetHandler api (queue [started]) {| Method := "POST"; RequestBody := inr user_added |} =
    Response 503 ("Updates channel is full" ++ LF) (queue [started]) /\
  GetHandler api (queue []) {| Method := "GET"; RequestBody := inr bot_started |} =
    Response 405 ("Method not allowed" ++ LF) (queue []).
Proof.
  split.
  - destruct (@GetHandler_statuses payload members json api (queue [started])
                {| Method := "POST"; RequestBody := inr user_added |})
      as (_ & Hpost & _).
    destruct (Hpost eq_refl) as (_ & _ & Hdecoded).
    destruct (Hdecoded user_added added eq_refl eq_refl eq_refl) as (_ & _ & Hfull).
    apply Hfull; [reflexivity | cbn; lia].
  - apply (proj1 (@GetHandler_statuses payload members json api (queue [])
                    {| Method := "GET"; RequestBody := inr bot_started |})).
    discriminate.
Defined.

(** C7 on the discriminator [new_widget]. *)
Lemma bytesToProperAttachment_unknown_type_witness :
  bytesToProperAttachment new_widget = inr (BaseAttachment {| Type_ := "new_widget" |}) /\
  bytesToProperAttachment (Doc broken_audio) =
    inl (Errorf_w "failed to unmarshal attachment of type audio" UnmarshalTypeError).
Proof.
  split.
  - apply (proj1 (@bytesToProperAttachment_unknown_type payload members json new_widget
                    {| Type_ := "new_widget" |} eq_refl)).
    reflexivity.
  - apply (proj2 (@bytesToProperAttachment_unknown_type payload members json
                    (Doc broken_audio) {| Type_ := "audio" |} eq_refl)
             (fun _ => AudioAttachment zero_Attachment zero_fields));
      reflexivity.
Defined.

(** C8 on a message-created update whose second attachment is broken. *)
Lemma attachment_failure_aborts_update_witness :
  bytesToProperAttachment (Doc broken_audio) =
    inl (Errorf_w "failed to unmarshal attachment of type audio" UnmarshalTypeError) /\
  exists e',
    bytesToProperUpdate api created_with_broken =
      inl (Errorf_w "failed to process message attachments"
             (Errorf_w "failed to process attachment" e')).
Proof.
  split; [reflexivity|].
  destruct (proj1 (@attachment_failure_aborts_update payload members json api
                     created_with_broken (@MessageCreatedUpdate payload members)
                     {| UpdateType := "message_created"; DebugRaw := "" |} broken_message
                     [audio; Doc broken_audio]
                     (or_introl eq_refl)
                     (ex_intro _ _ (ex_intro _ _ (conj eq_refl (conj eq_refl eq_refl))))
                     (or_introl eq_refl))
              (Doc broken_audio)
              (Errorf_w "failed to unmarshal attachment of type audio" UnmarshalTypeError)
              (or_intror (or_introl eq_refl)) eq_refl)
    as (pre & first & post & e' & _ & _ & _ & Herr & _).
  exists e'. exact Herr.
Defined.

(** C9 on a response that is not JSON. *)
Lemma sendMessage_masks_decode_error_witness :
  fst (sendMessage (fields := members) false 42 0 "debug"
         (inr {| ReadAll := inr (Garbage "<html>502 Bad Gateway</html>"); Close := None |}))
    = None.
Proof.
  apply (proj1 (@sendMessage_masks_decode_error payload members json consts false 42 0
                  "debug"
                  {| ReadAll := inr (Garbage "<html>502 Bad Gateway</html>");
                     Close := None |}
                  SyntaxError eq_refl)).
Defined.

(** C10 on a message with an empty raw list whose link carries a raw
    attachment: the link's attachment list stays empty. *)
Lemma empty_raw_attachments_take_body_branch_witness :
  processMessageAttachments (MessageCreatedUpdate edited (quoting_message (Some []))) =
    inr (MessageCreatedUpdate edited (quoting_message (Some []))) /\
  linkAttachments
    (processMessageAttachments (MessageCreatedUpdate edited (quoting_message (Some []))))
    = Some [].
Proof.
  assert (processMessageAttachments (MessageCreatedUpdate edited (quoting_message (Some [])))
          = inr (MessageCreatedUpdate edited (quoting_message (Some [])))) as H.
  { apply (@empty_raw_attachments_take_body_branch payload members json
             (@MessageCreatedUpdate payload members) edited (quoting_message (Some []))).
    - left. reflexivity.
    - reflexivity. }
  split; [exact H|]. rewrite H. reflexivity.
Defined.
End Runs.

(* ===================================================================== *)
(** * Further properties of the fetch loop                                 *)
(* ===================================================================== *)

Section RetryOutcomes.
Context {bytes fields : Type} `{J : JSON bytes fields} `{K : Consts}.

Local Abbreviation Event := (@Event bytes fields).

(** An attempt that fails with a transient error and whose backoff wait
    is not cancelled. *)
Local Abbreviation retried params env errs j :=
  (snd (fst (getUpdates (ctx_Err (env j)) params (response (env j)))) = Some (errs j) /\
   transient (errs j) /\ wait_Done (env j) = None).

(** After [i] retried attempts the loop stands at attempt [attempt + i]:
    [i] requests and the waits of the attempts passed lie behind it. *)
Lemma retryLoop_after_failures (params : UpdatesParams) (env : nat -> @Attempt bytes)
    (errs : nat -> error) :
  forall (i remaining attempt : nat) (lastErr : option error),
    (remaining + attempt = maxRetries)%nat ->
    (i < remaining)%nat ->
    (forall j, (attempt <= j < attempt + i)%nat -> retried (Some params) env errs j) ->
    exists lastErr',
      let rest := retryLoop (remaining - i) (attempt + i) lastErr' (Some params) env in
      let run := retryLoop remaining attempt lastErr (Some params) env in
      fst run = fst rest /\
      requests (snd run) = repeat (updatesValues params) i ++ requests (snd rest) /\
      waits (snd run) = map retryWait (seq attempt i) ++ waits (snd rest).
Proof.
  induction i as [|i IH]; intros remaining attempt lastErr Hsum Hlt Hfail.
  - exists lastErr. rewrite Nat.sub_0_r, Nat.add_0_r. cbn. auto.
  - destruct remaining as [|n]; [lia|].
    destruct (Hfail attempt ltac:(lia)) as (He & Ht & Hw).
    destruct (IH n (S attempt) (Some (errs attempt)) ltac:(lia) ltac:(lia))
      as (lastErr' & Hres & Hreq & Hwaits).
    { intros j Hj. apply Hfail. lia. }
    exists lastErr'.
    replace (S n - S i)%nat with (n - i)%nat by lia.
    replace (attempt + S i)%nat with (S attempt + i)%nat by lia.
    cbn [retryLoop].
    destruct (getUpdates_trace (ctx_Err (env attempt)) params (response (env attempt)))
      as (Hreq0 & Hw0 & _).
    destruct (getUpdates (ctx_Err (env attempt)) (Some params) (response (env attempt)))
      as [[result lastErr0] tr0]. cbn in He, Hreq0, Hw0. subst lastErr0.
    rewrite (transient_test Ht).
    assert ((Z.of_nat attempt <? Z.of_nat maxRetries - 1) = true) as ->
      by (apply Z.ltb_lt; lia).
    rewrite Hw.
    destruct (retryLoop n (S attempt) (Some (errs attempt)) (Some params) env) as [r tr'].
    cbn in Hres, Hreq, Hwaits |- *.
    rewrite requests_app, waits_app, Hreq0, Hw0. cbn.
    rewrite Hreq, Hwaits. auto.
Qed.

(** X1.  Retry, then success: when the first [i] attempts fail with
    transient errors (no wait cancelled) and attempt [i] returns without
    error, [getUpdatesWithRetry] returns what that attempt returned, after
    exactly [i + 1] requests and the waits [retryWait 0 .. retryWait (i-1)];
    the earlier errors are dropped. *)
Theorem getUpdatesWithRetry_succeeds_after_failures
    (params : option UpdatesParams) (env : nat -> @Attempt bytes)
    (errs : nat -> error) (i : nat) (result : option (UpdateList bytes)) :
  (i < maxRetries)%nat ->
  (forall j, (j < i)%nat -> retried params env errs j) ->
  fst (@getUpdates bytes fields J K (ctx_Err (env i)) params (response (env i)))
    = (result, None) ->
  let run := @getUpdatesWithRetry bytes fields J K params env in
  fst run = (result, None) /\
  List.length (requests (snd run)) = S i /\
  waits (snd run) = map retryWait (seq 0 i).
Proof.
  intros Hi Hfail Hok run. subst run. unfold getUpdatesWithRetry.
  set (p := match params with Some p => p | None => zero_UpdatesParams end).
  replace (match params with Some p0 => Some p0 | None => Some zero_UpdatesParams end)
    with (Some p) by (now destruct params).
  assert (forall c r, @getUpdates bytes fields J K c params r = getUpdates c (Some p) r)
    as Hp by (intros; subst p; now destruct params).
  destruct (@retryLoop_after_failures p env errs i maxRetries 0%nat None)
    as (lastErr' & Hres & Hreq & Hwaits); [lia | lia | |].
  { intros j Hj. rewrite <- Hp. apply Hfail. lia. }
  cbn zeta in Hres, Hreq, Hwaits. rewrite Hres, Hreq, Hwaits. cbn [Nat.add].
  destruct (maxRetries - i)%nat as [|n] eqn:Hn; [lia|]. cbn [retryLoop].
  rewrite Hp in Hok.
  destruct (getUpdates_trace (ctx_Err (env i)) p (response (env i))) as (Hreq0 & Hw0 & _).
  destruct (getUpdates (ctx_Err (env i)) (Some p) (response (env i)))
    as [[res err] tr0]. cbn in Hok, Hreq0, Hw0. injection Hok as -> ->.
  cbn. rewrite Hreq0, Hw0, app_nil_r, length_app, repeat_length. cbn.
  repeat split; lia.
Qed.

(** X2.  Cancellation ends the retries at once.  When, after [i] retried
    attempts, the transport of attempt [i] reports a cancelled (or
    expired) context, or the backoff wait after a transient failure of
    attempt [i] is cut by [ctx.Done()], [getUpdatesWithRetry] returns the
    context's error as it is (not wrapped into "failed after ..."), after
    exactly [i + 1] requests; no later attempt is made. *)
Theorem getUpdatesWithRetry_stops_on_cancellation
    (params : option UpdatesParams) (env : nat -> @Attempt bytes)
    (errs : nat -> error) (i : nat) (s : Sentinel) :
  (forall j, (j < i)%nat -> retried params env errs j) ->
  let run := @getUpdatesWithRetry bytes fields J K params env in
  (forall err,
     (i < maxRetries)%nat ->
     response (env i) = inl err ->
     errors_As_TimeoutError err = false ->
     (errors_Is err context_Canceled || errors_Is err context_DeadlineExceeded) = true ->
     ctx_Err (env i) = Some s ->
     fst run = (None, Some (Sentinel_error s)) /\
     List.length (requests (snd run)) = S i /\
     waits (snd run) = map retryWait (seq 0 i)) /\
  ((S i < maxRetries)%nat ->
   snd (fst (@getUpdates bytes fields J K (ctx_Err (env i)) params (response (env i))))
     = Some (errs i) ->
   transient (errs i) ->
   wait_Done (env i) = Some s ->
   fst run = (None, Some (Sentinel_error s)) /\
   List.length (requests (snd run)) = S i /\
   waits (snd run) = map retryWait (seq 0 i)).
Proof.
  intros Hfail run. subst run. unfold getUpdatesWithRetry.
  set (p := match params with Some p => p | None => zero_UpdatesParams end).
  replace (match params with Some p0 => Some p0 | None => Some zero_UpdatesParams end)
    with (Some p) by (now destruct params).
  assert (forall c r, @getUpdates bytes fields J K c params r = getUpdates c (Some p) r)
    as Hp by (intros; subst p; now destruct params).
  assert (forall j, (0 <= j < 0 + i)%nat -> retried (Some p) env errs j) as Hfail'.
  { intros j Hj. rewrite <- Hp. apply Hfail. lia. }
  split.
  - intros err Hi Hresp Htimeout Hcancel Hctx.
    destruct (@retryLoop_after_failures p env errs i maxRetries 0%nat None
                ltac:(lia) Hi Hfail') as (lastErr' & Hres & Hreq & Hwaits).
    cbn zeta in Hres, Hreq, Hwaits. rewrite Hres, Hreq, Hwaits. cbn [Nat.add].
    destruct (maxRetries - i)%nat as [|n] eqn:Hn; [lia|]. cbn [retryLoop].
    unfold getUpdates. rewrite Hresp, Htimeout, Hcancel, Hctx. cbn.
    destruct s; cbn; rewrite app_nil_r, length_app, repeat_length; cbn;
      repeat split; lia.
  - intros Hi He Ht Hw.
    destruct (@retryLoop_after_failures p env errs i maxRetries 0%nat None
                ltac:(lia) ltac:(lia) Hfail') as (lastErr' & Hres & Hreq & Hwaits).
    cbn zeta in Hres, Hreq, Hwaits. rewrite Hres, Hreq, Hwaits. cbn [Nat.add].
    destruct (maxRetries - i)%nat as [|n] eqn:Hn; [lia|]. cbn [retryLoop].
    rewrite Hp in He.
    destruct (getUpdates_trace (ctx_Err (env i)) p (response (env i))) as (Hreq0 & Hw0 & _).
    destruct (getUpdates (ctx_Err (env i)) (Some p) (response (env i)))
      as [[res err] tr0]. cbn in He, Hreq0, Hw0. subst err.
    rewrite (transient_test Ht).
    assert ((Z.of_nat i <? Z.of_nat maxRetries - 1) = true) as ->
      by (apply Z.ltb_lt; lia).
    rewrite Hw. cbn.
    rewrite requests_app, waits_app, Hreq0, Hw0. cbn.
    rewrite app_nil_r, length_app, repeat_length. cbn. repeat split; lia.
Qed.

Lemma wrap64_small (z : Z) : - 2 ^ 63 <= z < 2 ^ 63 -> wrap64 z = z.
Proof. intro H. unfold wrap64. rewrite Z.mod_small; lia. Qed.

(** Up to attempt 33 the wait is [2^attempt] seconds; from attempt 34 on
    the multiplication overflows the [int64] of [time.Duration]. *)
Lemma retryWait_exact (i : nat) :
  (i <= 33)%nat -> retryWait i = 2 ^ Z.of_nat i * Second.
Proof.
  intro Hi. unfold retryWait. rewrite Z.shiftl_1_l.
  assert (0 < 2 ^ Z.of_nat i <= 2 ^ 33) as Hpow.
  { split; [apply Z.pow_pos_nonneg; lia | apply Z.pow_le_mono_r; lia]. }
  rewrite (@wrap64_small (2 ^ Z.of_nat i)) by lia.
  apply wrap64_small. unfold Second. lia.
Qed.

Lemma total_app (l1 l2 : list Z) : total (l1 ++ l2) = total l1 + total l2.
Proof. unfold total. induction l1 as [|x l1 IH]; cbn; lia. Qed.

Lemma total_powers (n : nat) :
  total (map (fun i => 2 ^ Z.of_nat i * Second) (seq 0 n)) = (2 ^ Z.of_nat n - 1) * Second.
Proof.
  induction n as [|n IH]; [reflexivity|].
  rewrite seq_S, map_app, total_app, IH. cbn [map Nat.add total fold_right].
  rewrite Nat2Z.inj_succ, Z.pow_succ_r by lia. lia.
Qed.

(** X3.  The backoff is bounded.  With at most 34 attempts configured,
    every call of [getUpdatesWithRetry] sleeps at most [maxRetries - 1]
    times, once between two consecutive attempts and never after the last
    one; each wait is positive and the waits add up to at most
    [2^(maxRetries-1) - 1] seconds. *)
Theorem getUpdatesWithRetry_total_backoff
    (params : option UpdatesParams) (env : nat -> @Attempt bytes) :
  (maxRetries <= 34)%nat ->
  let run := @getUpdatesWithRetry bytes fields J K params env in
  (List.length (waits (snd run)) <= maxRetries - 1)%nat /\
  List.length (waits (snd run)) = (List.length (requests (snd run)) - 1)%nat /\
  Forall (fun d => 0 < d) (waits (snd run)) /\
  total (waits (snd run)) <= (2 ^ Z.of_nat (maxRetries - 1) - 1) * Second.
Proof.
  intros Hmax run. subst run. unfold getUpdatesWithRetry.
  set (p := match params with Some p => p | None => zero_UpdatesParams end).
  replace (match params with Some p0 => Some p0 | None => Some zero_UpdatesParams end)
    with (Some p) by (now destruct params).
  destruct (retryLoop_shape p env maxRetries 0 None ltac:(lia)) as (k & Hk & Hpos & Hr & Hw).
  rewrite Hw, Hr, length_map, length_seq, repeat_length.
  assert (map retryWait (seq 0 (k - 1)) =
          map (fun i => 2 ^ Z.of_nat i * Second) (seq 0 (k - 1))) as ->.
  { apply map_ext_in. intros i Hi. apply in_seq in Hi. apply retryWait_exact. lia. }
  repeat split.
  - lia.
  - apply Forall_forall. intros d Hd. apply in_map_iff in Hd as (i & <- & _).
    assert (0 < 2 ^ Z.of_nat i) by (apply Z.pow_pos_nonneg; lia). unfold Second. lia.
  - rewrite total_powers.
    assert (2 ^ Z.of_nat (k - 1) <= 2 ^ Z.of_nat (maxRetries - 1))
      by (apply Z.pow_le_mono_r; lia).
    unfold Second. lia.
Qed.
End RetryOutcomes.

Section LoopOutcomes.
Context {bytes fields : Type} `{J : JSON bytes fields} `{K : Consts}.

Local Abbreviation UpdateI := (UpdateInterface bytes fields).
Local Abbreviation Event := (@Event bytes fields).
Local Abbreviation Fetcher := (@Fetcher bytes fields).
Local Abbreviation Round := (@Round bytes).
Local Abbreviation poll a f :=
  (Ev_request "GET" pathUpdates (updatesValues (pollParams a (marker f))) false None).

Lemma closes_app (t1 t2 : list Event) : closes (t1 ++ t2) = (closes t1 + closes t2)%nat.
Proof. induction t1 as [|[] t1 IH]; cbn; congruence. Qed.

Lemma closes_sends (us : list UpdateI) : closes (map (fun u => Ev_send u) us) = 0%nat.
Proof. induction us; cbn; auto. Qed.

Lemma getUpdates_quiet ctxErr (params : option UpdatesParams)
    (response : error + ReadCloser bytes) :
  let tr := snd (@getUpdates bytes fields J K ctxErr params response) in
  sent tr = [] /\ closes tr = 0%nat.
Proof.
  unfold getUpdates, closeBody. destruct response as [err|body]; cbn.
  - destruct (errors_As_TimeoutError err); [now cbn|].
    destruct (errors_Is err context_Canceled || errors_Is err context_DeadlineExceeded);
      now cbn.
  - destruct (ReadAll body) as [err|data]; [destruct (Close body); now cbn|].
    destruct (Unmarshal_UpdateList data); destruct (Close body); now cbn.
Qed.

(** Fetching sends nothing into the channel and does not close it. *)
Lemma retryLoop_quiet (params : option UpdatesParams) (env : nat -> @Attempt bytes) :
  forall (remaining attempt : nat) (lastErr : option error),
    let tr := snd (@retryLoop bytes fields J K remaining attempt lastErr params env) in
    sent tr = [] /\ closes tr = 0%nat.
Proof.
  induction remaining as [|n IH]; intros attempt lastErr; cbn; [auto|].
  destruct (getUpdates_quiet (ctx_Err (env attempt)) params (response (env attempt)))
    as (Hs0 & Hc0).
  destruct (getUpdates (ctx_Err (env attempt)) params (response (env attempt)))
    as [[result lastErr'] tr0]. cbn in Hs0, Hc0.
  destruct lastErr' as [err|]; [|now cbn].
  destruct (errors_Is err context_Canceled || errors_Is err context_DeadlineExceeded);
    [now cbn|].
  specialize (IH (S attempt) (Some err)). cbn in IH. destruct IH as (Hs & Hc).
  destruct (Z.of_nat attempt <? Z.of_nat maxRetries - 1).
  - destruct (wait_Done (env attempt)).
    + cbn. rewrite sent_app, closes_app, Hs0, Hc0. now cbn.
    + destruct (retryLoop n (S attempt) (Some err) params env) as [r tr']. cbn in Hs, Hc |- *.
      rewrite sent_app, closes_app, Hs0, Hc0. cbn. now rewrite Hs, Hc.
  - destruct (retryLoop n (S attempt) (Some err) params env) as [r tr']. cbn in Hs, Hc |- *.
    now rewrite sent_app, closes_app, Hs0, Hc0, Hs, Hc.
Qed.

(** What the loop over a page sends: the decodable items, in order, up
    to the send at which [ctx.Done()] is selected. *)
Lemma sendUpdates_decodable (a : Api) (updates : list bytes) :
  forall budget : option nat,
    sendUpdates a updates budget =
      match budget with
      | None => (map (fun u => Ev_send u) (decodable a updates), false)
      | Some n =>
          (map (fun u => Ev_send u) (firstn n (decodable a updates)),
           (n <? List.length (decodable a updates))%nat)
      end.
Proof.
  induction updates as [|raw rest IH]; intro budget; cbn.
  - destruct budget as [[|n]|]; reflexivity.
  - destruct (bytesToProperUpdate a raw) as [e|u]; [apply IH|].
    destruct budget as [[|n]|]; cbn; [reflexivity| |]; now rewrite IH.
Qed.

Lemma live_step_drain (a : Api) (f : Fetcher) (r : Round) :
  live f -> select_Done r = false -> step a f r = drain a f r.
Proof. intros [H|H] Hsel; unfold step; rewrite H; [now rewrite Hsel | reflexivity]. Qed.

(** X4.  An expected long-poll timeout costs one request and nothing
    else: when the transport's first answer of a round is a
    [TimeoutError], the round issues exactly one request (with the
    current cursor), logs nothing, sleeps and sends nothing, keeps the
    cursor and leaves the loop idle until the next tick. *)
Theorem timeout_round_is_quiet
    (a : Api) (f : Fetcher) (r : Round) (err : error) :
  live f -> select_Done r = false ->
  (0 < maxRetries)%nat ->
  response (attempts r 0%nat) = inl err ->
  errors_As_TimeoutError err = true ->
  step a f r = {| phase := Idle; marker := marker f; trace := trace f ++ [poll a f] |}.
Proof.
  intros Hlive Hsel Hmax Hresp Htimeout.
  rewrite (@live_step_drain a f r Hlive Hsel). unfold drain, getUpdatesWithRetry.
  destruct maxRetries as [|n]; [lia|]. cbn [retryLoop].
  unfold getUpdates. rewrite Hresp, Htimeout. reflexivity.
Qed.

(** X5.  A fetch that fails for good ends the tick, not the pipeline:
    when every attempt of a round fails with a transient error, the round
    makes [maxRetries] requests, sends nothing, logs the terminal error
    once as its last event, keeps the cursor and leaves the loop idle. *)
Theorem failed_round_ends_the_tick
    (a : Api) (f : Fetcher) (r : Round) (errs : nat -> error) :
  live f -> select_Done r = false ->
  (0 < maxRetries)%nat ->
  (forall i, (i < maxRetries)%nat ->
     snd (fst (getUpdates (ctx_Err (attempts r i)) (Some (pollParams a (marker f)))
                 (response (attempts r i)))) = Some (errs i) /\
     transient (errs i)) ->
  (forall i, (i + 1 < maxRetries)%nat -> wait_Done (attempts r i) = None) ->
  exists tr : list Event,
    step a f r =
      {| phase := Idle; marker := marker f;
         trace := trace f ++ tr ++
                  [Ev_log (Log_failed_to_get_updates
                             (failedAfter (Some (errs (maxRetries - 1)%nat))))] |} /\
    sent tr = [] /\
    List.length (requests tr) = maxRetries.
Proof.
  intros Hlive Hsel Hmax Herr Hwait.
  rewrite (@live_step_drain a f r Hlive Hsel). unfold drain, getUpdatesWithRetry.
  destruct (@retryLoop_exhausted bytes fields J K (pollParams a (marker f)) (attempts r)
              errs Herr Hwait maxRetries 0%nat None ltac:(lia)) as (Hres & Hlen & _).
  pose proof (retryLoop_quiet (Some (pollParams a (marker f))) (attempts r)
                maxRetries 0 None) as (Hsent & _).
  destruct (retryLoop maxRetries 0 None (Some (pollParams a (marker f))) (attempts r))
    as [[updateList err] tr]. cbn in Hres, Hlen, Hsent.
  destruct maxRetries as [|n] eqn:Hn; [lia|].
  injection Hres as -> ->. exists tr. repeat split; auto.
Qed.

(** X6.  The nil page.  When the transport's error is classified as a
    cancellation or an expired deadline (and not as a [TimeoutError])
    while [ctx.Err()] is still nil, [getUpdates] returns a nil page with
    a nil error, [getUpdatesWithRetry] passes both on after this one
    request, and the loop, which reads [updateList.Updates] next, panics;
    the deferred [close(ch)] is its last event. *)
Theorem nil_page_panics
    (a : Api) (f : Fetcher) (r : Round) (err : error) :
  live f -> select_Done r = false ->
  (0 < maxRetries)%nat ->
  response (attempts r 0%nat) = inl err ->
  errors_As_TimeoutError err = false ->
  (errors_Is err context_Canceled || errors_Is err context_DeadlineExceeded) = true ->
  ctx_Err (attempts r 0%nat) = None ->
  fst (getUpdates (ctx_Err (attempts r 0%nat)) (Some (pollParams a (marker f)))
         (response (attempts r 0%nat))) = (None, None) /\
  fst (getUpdatesWithRetry (Some (pollParams a (marker f))) (attempts r)) = (None, None) /\
  step a f r =
    {| phase := Panicked; marker := marker f; trace := trace f ++ [poll a f; Ev_close] |}.
Proof.
  intros Hlive Hsel Hmax Hresp Htimeout Hcancel Hctx.
  rewrite (@live_step_drain a f r Hlive Hsel). unfold drain, getUpdatesWithRetry.
  destruct maxRetries as [|n]; [lia|]. cbn [retryLoop].
  unfold getUpdates. rewrite Hresp, Htimeout, Hcancel, Hctx. cbn. auto.
Qed.

(** The channel discipline of a fetcher state: while the goroutine runs
    the channel has not been closed; once it has ended, [close(ch)] is the
    last event and the only close. *)
Local Abbreviation closed_last f :=
  (match phase f with
   | Idle | Draining => closes (trace f) = 0%nat
   | Returned | Panicked =>
       exists tr : list Event, trace f = tr ++ [Ev_close] /\ closes tr = 0%nat
   end).

Lemma step_closed_last (a : Api) (f : Fetcher) (r : Round) :
  closed_last f -> closed_last (step a f r).
Proof.
  intro Hinv.
  assert (closes (trace f) = 0%nat -> closed_last (drain a f r)) as Hdrain.
  { intro Hc. unfold drain, getUpdatesWithRetry.
    pose proof (retryLoop_quiet
                  (Some (pollParams a (marker f))) (attempts r) maxRetries 0 None)
      as (_ & Hq).
    destruct (retryLoop maxRetries 0 None (Some (pollParams a (marker f))) (attempts r))
      as [[[ul|] [err|]] tr]; cbn in Hq |- *.
    1,3: now rewrite !closes_app, Hc, Hq.
    2: exists (trace f ++ tr); split;
         [now rewrite <- app_assoc | now rewrite closes_app, Hc, Hq].
    destruct (Updates ul) as [|raw rest] eqn:Hup; cbn -[sendUpdates].
    { now rewrite closes_app, Hc, Hq. }
    rewrite sendUpdates_decodable.
    destruct (sends r) as [n|]; cbn [fst snd].
    - destruct (n <? List.length (decodable a (raw :: rest)))%nat; cbn.
      + exists (trace f ++ tr ++ map (fun u => Ev_send u) (firstn n (decodable a (raw :: rest)))).
        split; [now rewrite <- !app_assoc|].
        now rewrite !closes_app, Hc, Hq, closes_sends.
      + now rewrite !closes_app, Hc, Hq, closes_sends.
    - cbn. now rewrite !closes_app, Hc, Hq, closes_sends. }
  unfold step. destruct (phase f) eqn:Hph.
  - destruct (select_Done r); [|now apply Hdrain]. cbn.
    exists (trace f). split; auto.
  - now apply Hdrain.
  - rewrite Hph. exact Hinv.
  - rewrite Hph. exact Hinv.
Qed.

(** X7.  The channel is closed exactly once, and last.  In every run of
    the goroutine, as long as it is running the trace holds no
    [close(ch)]; once it has returned or panicked, [close(ch)] is the last
    event of the trace and occurs nowhere else, so nothing is sent or
    requested after the close. *)
Theorem channel_closed_once_and_last (a : Api) (rounds : list Round) :
  let f := GetUpdates a rounds in
  match phase f with
  | Idle | Draining => closes (trace f) = 0%nat
  | Returned | Panicked =>
      exists tr : list Event, trace f = tr ++ [Ev_close] /\ closes tr = 0%nat
  end.
Proof.
  unfold GetUpdates.
  assert (forall (rs : list Round) (f : Fetcher),
            closed_last f -> closed_last (fold_left (step a) rs f)) as Hfold.
  { induction rs as [|r rs IH]; intros f Hinv; cbn [fold_left]; [exact Hinv|].
    apply IH. now apply step_closed_last. }
  apply Hfold. reflexivity.
Qed.

(** X8.  A page is delivered in order, minus what does not decode.  In a
    round without cancellation whose fetch returns a page, the updates
    sent into the channel are exactly the items of the page that decode,
    in page order, however many items fail and wherever they stand; no
    log line is written for them; a non-empty page keeps the loop
    draining, with the page's marker as cursor if it has one. *)
Theorem page_is_delivered_in_order
    (a : Api) (f : Fetcher) (r : Round) (page : UpdateList bytes) :
  live f -> answers a (marker f) r page ->
  exists fetched : list Event,
    getUpdatesWithRetry (Some (pollParams a (marker f))) (attempts r)
      = ((Some page, None), fetched) /\
    step a f r =
      {| phase := match Updates page with [] => Idle | _ :: _ => Draining end;
         marker := match Updates page, Marker page with
                   | _ :: _, Some m => m
                   | _, _ => marker f
                   end;
         trace := trace f ++ fetched ++
                  map (fun u => Ev_send u) (decodable a (Updates page)) |} /\
    sent (map (fun u => Ev_send u) (decodable a (Updates page)))
      = decodable a (Updates page) /\
    logged (map (fun u => Ev_send u) (decodable a (Updates page))) = [].
Proof.
  intros Hlive (Hsel & Hsends & tr & Hfetch).
  exists tr. split; [exact Hfetch|].
  rewrite (@step_page _ _ _ _ a f r page tr Hlive Hsel Hsends Hfetch).
  rewrite sendUpdates_decodable. cbn [fst].
  destruct (sent_map_send (decodable a (Updates page))) as (Hs & Hl & _). auto.
Qed.

(** X9.  Cancellation in the middle of a page.  When [ctx.Done()] is
    selected at the send that follows [n] completed ones, the channel has
    received the first [n] decodable updates of the page and no more, the
    goroutine returns and closes the channel, and the page's marker is not
    adopted. *)
Theorem cancelled_page_sends_a_prefix
    (a : Api) (f : Fetcher) (r : Round) (page : UpdateList bytes)
    (fetched : list Event) (n : nat) :
  live f -> select_Done r = false ->
  getUpdatesWithRetry (Some (pollParams a (marker f))) (attempts r)
    = ((Some page, None), fetched) ->
  sends r = Some n ->
  (n < List.length (decodable a (Updates page)))%nat ->
  step a f r =
    {| phase := Returned; marker := marker f;
       trace := trace f ++ fetched ++
                map (fun u => Ev_send u) (firstn n (decodable a (Updates page))) ++
                [Ev_close] |}.
Proof.
  intros Hlive Hsel Hfetch Hsends Hn.
  rewrite (@live_step_drain a f r Hlive Hsel). unfold drain. rewrite Hfetch, Hsends.
  destruct (Updates page) as [|raw rest] eqn:Hup; [cbn in Hn; lia|].
  rewrite sendUpdates_decodable.
  apply Nat.ltb_lt in Hn. now rewrite Hn.
Qed.

Lemma GetUpdates_snoc (a : Api) (rounds : list Round) (r : Round) :
  GetUpdates a (rounds ++ [r]) = step a (GetUpdates a rounds) r.
Proof. unfold GetUpdates. now rewrite fold_left_app. Qed.

(** X10.  Only cancellation and a nil page end the loop.  If the
    goroutine has returned, then in some round [ctx.Done()] was selected,
    at the outer select or at a send; if it has panicked, then in some
    round the fetch returned a nil page with a nil error.  Failed fetches,
    timeouts and undecodable items never end it. *)
Theorem loop_ends_only_on_cancellation (a : Api) (rounds : list Round) :
  (phase (GetUpdates a rounds) = Returned ->
   exists r, In r rounds /\ (select_Done r = true \/ exists n, sends r = Some n)) /\
  (phase (GetUpdates a rounds) = Panicked ->
   exists r cursor,
     In r rounds /\
     fst (getUpdatesWithRetry (Some (pollParams a cursor)) (attempts r)) = (None, None)).
Proof.
  induction rounds as [|r rounds IH] using rev_ind.
  - split; discriminate.
  - rewrite GetUpdates_snoc. destruct IH as (IHr & IHp).
    set (f := GetUpdates a rounds) in *.
    assert (forall P : Round -> Prop, (exists x, In x rounds /\ P x) ->
              exists x, In x (rounds ++ [r]) /\ P x) as Hweaken.
    { intros P (x & Hin & HP). exists x. split; [apply in_or_app; now left | exact HP]. }
    assert ((phase (drain a f r) = Returned -> exists n, sends r = Some n) /\
            (phase (drain a f r) = Panicked ->
             fst (getUpdatesWithRetry (Some (pollParams a (marker f))) (attempts r))
               = (None, None))) as (Hdr & Hdp).
    { unfold drain.
      destruct (getUpdatesWithRetry (Some (pollParams a (marker f))) (attempts r))
        as [[[ul|] [err|]] tr]; cbn; try (split; discriminate).
      - destruct (Updates ul) as [|raw rest]; [split; discriminate|].
        rewrite sendUpdates_decodable. destruct (sends r) as [n|]; cbn [fst snd].
        + split; [intros _; now exists n|].
          destruct (n <? List.length (decodable a (raw :: rest)))%nat; discriminate.
        + split; discriminate.
      - split; [discriminate | reflexivity]. }
    unfold step. destruct (phase f) eqn:Hph.
    + destruct (select_Done r) eqn:Hsel; cbn [phase].
      * split; [|discriminate]. intros _. exists r.
        split; [apply in_or_app; right; now left | now left].
      * split.
        -- intro H. exists r. split; [apply in_or_app; right; now left | right; auto].
        -- intro H. exists r, (marker f). split; [apply in_or_app; right; now left | auto].
    + split.
      * intro H. exists r. split; [apply in_or_app; right; now left | right; auto].
      * intro H. exists r, (marker f). split; [apply in_or_app; right; now left | auto].
    + split; [|rewrite Hph; discriminate]. intros _. apply Hweaken. now apply IHr.
    + split; [rewrite Hph; discriminate|]. intros _.
      destruct (IHp eq_refl) as (x & cursor & Hin & Hx).
      exists x, cursor. split; [apply in_or_app; now left | exact Hx].
Qed.

Lemma without_close_logs_app (t1 t2 : list Event) :
  without_close_logs (t1 ++ t2) = without_close_logs t1 ++ without_close_logs t2.
Proof. apply filter_app. Qed.

Lemma without_close_logs_sends (us : list UpdateI) :
  without_close_logs (map (fun u => Ev_send u) us) = map (fun u => Ev_send u) us.
Proof.
  unfold without_close_logs. induction us as [|u us IH]; cbn; [reflexivity|].
  now rewrite IH.
Qed.

Lemma getUpdates_healthy ctxErr (params : option UpdatesParams)
    (response : error + ReadCloser bytes) :
  fst (getUpdates ctxErr params (healthy_response response)) =
    fst (getUpdates ctxErr params response) /\
  snd (getUpdates ctxErr params (healthy_response response)) =
    without_close_logs (snd (getUpdates ctxErr params response)).
Proof.
  unfold getUpdates, closeBody. destruct response as [err|body]; cbn.
  - destruct (errors_As_TimeoutError err); [now cbn|].
    destruct (errors_Is err context_Canceled || errors_Is err context_DeadlineExceeded);
      now cbn.
  - destruct (ReadAll body) as [err|data]; [destruct (Close body); now cbn|].
    destruct (Unmarshal_UpdateList data); destruct (Close body); now cbn.
Qed.

Lemma retryLoop_healthy (params : option UpdatesParams) (env : nat -> @Attempt bytes) :
  forall (remaining attempt : nat) (lastErr : option error),
    fst (retryLoop remaining attempt lastErr params (healthy_attempts env)) =
      fst (retryLoop remaining attempt lastErr params env) /\
    snd (retryLoop remaining attempt lastErr params (healthy_attempts env)) =
      without_close_logs (snd (retryLoop remaining attempt lastErr params env)).
Proof.
  induction remaining as [|n IH]; intros attempt lastErr; cbn [retryLoop]; [now cbn|].
  cbn [healthy_attempts response ctx_Err wait_Done].
  destruct (getUpdates_healthy (ctx_Err (env attempt)) params (response (env attempt)))
    as (Hf & Hs).
  destruct (getUpdates (ctx_Err (env attempt)) params
              (healthy_response (response (env attempt)))) as [[result1 err1] tr1].
  destruct (getUpdates (ctx_Err (env attempt)) params (response (env attempt)))
    as [[result err] tr]. cbn in Hf, Hs. injection Hf as -> ->. subst tr1.
  destruct err as [err|]; [|now cbn].
  destruct (errors_Is err context_Canceled || errors_Is err context_DeadlineExceeded);
    [now cbn|].
  specialize (IH (S attempt) (Some err)). destruct IH as (IHf & IHs).
  destruct (retryLoop n (S attempt) (Some err) params (healthy_attempts env)) as [r1 tr1].
  destruct (retryLoop n (S attempt) (Some err) params env) as [r2 tr2].
  cbn in IHf, IHs. subst r1 tr1.
  destruct (Z.of_nat attempt <? Z.of_nat maxRetries - 1).
  - destruct (wait_Done (env attempt)); cbn [fst snd]; split; auto;
      rewrite !without_close_logs_app; reflexivity.
  - cbn [fst snd]. split; auto. now rewrite without_close_logs_app.
Qed.

Lemma step_healthy (a : Api) (f1 f2 : Fetcher) (r : Round) :
  phase f1 = phase f2 -> marker f1 = marker f2 ->
  trace f1 = without_close_logs (trace f2) ->
  phase (step a f1 (healthy_round r)) = phase (step a f2 r) /\
  marker (step a f1 (healthy_round r)) = marker (step a f2 r) /\
  trace (step a f1 (healthy_round r)) = without_close_logs (trace (step a f2 r)).
Proof.
  intros Hph Hm Htr.
  assert (phase (drain a f1 (healthy_round r)) = phase (drain a f2 r) /\
          marker (drain a f1 (healthy_round r)) = marker (drain a f2 r) /\
          trace (drain a f1 (healthy_round r)) =
            without_close_logs (trace (drain a f2 r))) as Hdrain.
  { unfold drain, getUpdatesWithRetry. cbn [healthy_round attempts sends]. rewrite Hm, Htr.
    destruct (retryLoop_healthy (Some (pollParams a (marker f2))) (attempts r)
                maxRetries 0 None) as (Hf & Hs).
    destruct (retryLoop maxRetries 0 None (Some (pollParams a (marker f2)))
                (healthy_attempts (attempts r))) as [r1 tr1].
    destruct (retryLoop maxRetries 0 None (Some (pollParams a (marker f2))) (attempts r))
      as [[[ul|] [err|]] tr2]; cbn [fst snd] in Hf, Hs; subst r1 tr1;
      cbn [phase marker trace]; rewrite ?without_close_logs_app; auto.
    destruct (Updates ul) as [|raw rest]; cbn [phase marker trace];
      rewrite ?without_close_logs_app; auto.
    rewrite sendUpdates_decodable.
    destruct (sends r) as [n|]; cbn [fst snd].
    - destruct (n <? List.length (decodable a (raw :: rest)))%nat; cbn [phase marker trace];
        rewrite ?without_close_logs_app, ?without_close_logs_sends; auto.
    - cbn [phase marker trace].
      rewrite ?without_close_logs_app, ?without_close_logs_sends. auto. }
  unfold step. rewrite Hph. destruct (phase f2) eqn:Hph2; auto.
  - cbn [healthy_round select_Done]. destruct (select_Done r); auto.
    cbn [phase marker trace]. rewrite Hm, Htr, without_close_logs_app. auto.
  - repeat split; congruence.
  - repeat split; congruence.
Qed.

(** X11.  A failing [Close] is logged and changes nothing else.  Run
    against an environment whose response bodies all close cleanly, the
    goroutine reaches the same phase with the same cursor, and its trace
    is the trace of the original run without the lines that report a
    failed close: the same requests, waits, other log lines and sends, in
    the same order. *)
Theorem failed_close_is_only_logged (a : Api) (rounds : list Round) :
  phase (GetUpdates a (map healthy_round rounds)) = phase (GetUpdates a rounds) /\
  marker (GetUpdates a (map healthy_round rounds)) = marker (GetUpdates a rounds) /\
  trace (GetUpdates a (map healthy_round rounds)) =
    without_close_logs (trace (GetUpdates a rounds)).
Proof.
  induction rounds as [|r rounds IH] using rev_ind.
  - now cbn.
  - rewrite map_app. cbn [map]. rewrite !GetUpdates_snoc.
    destruct IH as (Hph & Hm & Htr). now apply step_healthy.
Qed.
End LoopOutcomes.

Section QueueFacts.
Context {bytes fields : Type} `{J : JSON bytes fields}.

Local Abbreviation Chan := (@Chan bytes fields).
Local Abbreviation Request := (@Request bytes).

(** X12.  The webhook handler respects the queue.  On an open channel
    whose buffer is within its capacity, the handler always answers, with
    one of 200, 400, 405 and 503; capacity and openness are kept and the
    buffer stays within the capacity; with any status but 200 the channel
    is exactly as before; with 200 exactly one update, the decoded body,
    has been added behind what was there (to the buffer, or handed to a
    waiting receiver). *)
Theorem GetHandler_respects_the_queue (a : Api) (updates : Chan) (r : Request) :
  closed updates = false ->
  (List.length (buffer updates) <= capacity updates)%nat ->
  exists code text updates',
    GetHandler a updates r = Response code text updates' /\
    In code [200; 400; 405; 503] /\
    capacity updates' = capacity updates /\ closed updates' = false /\
    (List.length (buffer updates') <= capacity updates')%nat /\
    (code <> 200 -> updates' = updates) /\
    (code = 200 ->
     exists body update,
       RequestBody r = inr body /\ bytesToProperUpdate a body = inr update /\
       ((buffer updates' = buffer updates ++ [update] /\
         handed updates' = handed updates /\ receivers updates = O) \/
        (buffer updates' = buffer updates /\
         handed updates' = handed updates ++ [update] /\
         receivers updates = S (receivers updates')))).
Proof.
  intros Hopen Hcap. unfold GetHandler, http_Error.
  destruct (negb (Method r =? "POST")%string).
  { exists 405, ("Method not allowed" ++ LF)%string, updates.
    repeat split; auto; [cbn; auto 6 | discriminate]. }
  destruct (RequestBody r) as [err|body].
  { exists 400, ("Failed to read request body" ++ LF)%string, updates.
    repeat split; auto; [cbn; auto 6 | discriminate]. }
  destruct (bytesToProperUpdate a body) as [err|update] eqn:Hdec.
  { exists 400, ("Failed to parse update" ++ LF)%string, updates.
    repeat split; auto; [cbn; auto 6 | discriminate]. }
  unfold trySend. rewrite Hopen.
  destruct (receivers updates) as [|n] eqn:Hrecv.
  - destruct (List.length (buffer updates) <? capacity updates)%nat eqn:Hroom.
    + apply Nat.ltb_lt in Hroom. eexists 200, _, _. split; [reflexivity|]. cbn.
      repeat split; auto; [rewrite length_app; cbn; lia | congruence |].
      intros _. exists body, update. repeat split; auto.
    + exists 503, ("Updates channel is full" ++ LF)%string, updates.
      repeat split; auto; [cbn; auto 6 | discriminate].
  - eexists 200, _, _. split; [reflexivity|]. cbn.
    repeat split; auto; [congruence |].
    intros _. exists body, update. repeat split; auto.
Qed.

(** X13.  The handler panics in one case only: a POST whose body decodes,
    offered to a channel that has been closed.  Every other request is
    answered, also on a closed channel. *)
Theorem GetHandler_panics_only_on_closed_channel
    (a : Api) (updates : Chan) (r : Request) :
  GetHandler a updates r = HandlerPanic <->
  closed updates = true /\ Method r = "POST"%string /\
  exists body update, RequestBody r = inr body /\ bytesToProperUpdate a body = inr update.
Proof.
  unfold GetHandler, http_Error.
  destruct (Method r =? "POST")%string eqn:Hm; cbn.
  - apply String.eqb_eq in Hm.
    destruct (RequestBody r) as [err|body].
    { split; [discriminate | intros (_ & _ & b & u & H & _); discriminate H]. }
    destruct (bytesToProperUpdate a body) as [err|update] eqn:Hdec.
    { split; [discriminate|]. intros (_ & _ & b & u & Hb & Hu).
      injection Hb as <-. rewrite Hdec in Hu. discriminate Hu. }
    unfold trySend. destruct (closed updates).
    + split; [|reflexivity]. intros _. repeat split; auto. now exists body, update.
    + split; [|intros (H & _); discriminate H].
      destruct (receivers updates); [|discriminate].
      destruct (List.length (buffer updates) <? capacity updates)%nat; discriminate.
  - apply String.eqb_neq in Hm. split; [discriminate|]. intros (_ & H & _). contradiction.
Qed.
End QueueFacts.

(* ===================================================================== *)
(** * Properties of messages.go                                            *)
(* ===================================================================== *)

Section MessagesFacts.
Context {bytes fields : Type} `{J : JSON bytes fields} `{K : Consts}
        `{MC : MoreConsts} `{MJ : MessagesJSON bytes fields}.

(** X14.  [GetMessages] puts the bounds in ascending order.  Whichever
    way [from] and [to] are passed, the request is the same, and it
    carries the smaller bound as [from] and the larger as [to] (a bound
    that is 0 is left out); a caller who passes [to] below [from], as the
    comment above the function asks, has the two exchanged. *)
Theorem GetMessages_orders_the_range
    (chatID : Z) (messageIDs : list string) (from to count : Z)
    (response : error + ReadCloser bytes) :
  messages.GetMessages chatID messageIDs from to count response =
    messages.GetMessages chatID messageIDs to from count response /\
  messages.GetMessages_values chatID messageIDs from to count =
    (if chatID =? 0 then [] else [(paramChatID, Itoa chatID)]) ++
    (match messageIDs with
     | [] => []
     | _ :: _ => [(paramMessageIDs, Join messageIDs ",")]
     end) ++
    (if Z.min from to =? 0 then [] else [(paramFrom, Itoa (Z.min from to))]) ++
    (if Z.max from to =? 0 then [] else [(paramTo, Itoa (Z.max from to))]) ++
    (if 0 <? count then [(paramCount, Itoa count)] else []).
Proof.
  assert (forall a b, messages.GetMessages_values chatID messageIDs a b count =
                      messages.GetMessages_values chatID messageIDs b a count) as Hsym.
  { intros a b. unfold messages.GetMessages_values.
    destruct (b <? a) eqn:Hba, (a <? b) eqn:Hab; try reflexivity.
    - apply Z.ltb_lt in Hba, Hab. lia.
    - apply Z.ltb_ge in Hba, Hab. now replace b with a by lia. }
  split.
  - unfold messages.GetMessages. now rewrite (Hsym from to).
  - unfold messages.GetMessages_values. destruct (to <? from) eqn:Hlt.
    + apply Z.ltb_lt in Hlt. now rewrite Z.min_r, Z.max_l by lia.
    + apply Z.ltb_ge in Hlt. now rewrite Z.min_l, Z.max_r by lia.
Qed.

(** X15.  [Check] never returns a nil error.  Whatever the transport
    answers, the error of [checkUser] is non-nil (after a successful
    exchange it is the decoded [schemes.Error] itself, also when numbers
    were found); [checkNumberExist] issues the same request and returns
    the same error, and [checkUser] answers true exactly when
    [checkNumberExist] returns a list, which is then non-empty. *)
Theorem Check_never_returns_nil
    (reset : bool) (message : NewMessageBody) (response : error + ReadCloser bytes) :
  let check := messages.checkUser reset message response in
  let list := messages.checkNumberExist reset message response in
  snd (fst check) <> None /\
  snd (fst check) = snd (fst list) /\
  calls (snd check) = calls (snd list) /\
  (fst (fst check) = true <-> fst (fst list) <> None) /\
  (forall numbers, fst (fst list) = Some numbers -> numbers <> []) /\
  (forall body result,
     response = inr body ->
     messages.Decode zero_ErrorBody Decode_ErrorBody body = (result, None) ->
     fst check =
       (match NumberExist result with [] => false | _ :: _ => true end,
        Some (schemes_Error (Error_Code result) (Error_Message result)))).
Proof.
  unfold messages.checkUser, messages.checkNumberExist, messages.closing.
  destruct response as [err|body]; cbn.
  { repeat split; intros; congruence. }
  destruct (messages.Decode zero_ErrorBody Decode_ErrorBody body) as [result [err|]] eqn:Hdec.
  - destruct (Close body); cbn; repeat split; intros; try congruence.
  - destruct (NumberExist result) as [|n ns] eqn:Hn; destruct (Close body); cbn;
      repeat split; intros; try congruence.
    all: match goal with
         | Hb : inr _ = inr _, Hr : _ = (_, None) |- _ =>
             injection Hb as <-; rewrite Hdec in Hr; injection Hr as <-; now rewrite Hn
         end.
Qed.

(** X16.  [sendMessage] of [messages] returns a message or an error,
    never both and never neither; [Send] returns that error and makes the
    same single request.  A response whose body cannot be read is
    reported with the read error, while the debug send of the same
    message over the same response returns nil. *)
Theorem Send_returns_message_or_error
    (m : OutgoingMessage) (response : error + ReadCloser bytes) :
  let result := fst (messages.SendWithResult m response) in
  (fst result = None <-> snd result <> None) /\
  messages.Send m response = (snd result, snd (messages.SendWithResult m response)) /\
  calls (snd (messages.SendWithResult m response)) =
    [{| Call_method := "POST"; Call_path := pathMessages;
        Call_values := sendValues (m_chatID m) (m_userID m);
        Call_reset := m_reset m; Call_body := Some (m_message m) |}] /\
  (forall body err,
     response = inr body -> ReadAll body = inl err ->
     result = (None, Some err) /\
     fst (@sendMessage bytes fields J K (m_reset m) (m_chatID m) (m_userID m)
            (Text (m_message m)) response) = None).
Proof.
  unfold messages.SendWithResult, messages.Send, messages.sendMessage, messages.closing.
  destruct response as [err|body]; cbn.
  { repeat split; intros; congruence. }
  unfold sendMessage.
  destruct (messages.Decode (zero_Message zero_fields) Decode_MessageResponse body)
    as [wrapper [err|]] eqn:Hdec; destruct (Close body) eqn:Hclose; cbn;
    repeat split; intros; try congruence.
  all: match goal with Hb : inr _ = inr _ |- _ => injection Hb as <- end.
  all: try (unfold decodeError;
            match goal with Hread : ReadAll _ = inl _ |- _ => now rewrite Hread end).
  all: unfold messages.Decode in Hdec;
    match goal with Hread : ReadAll _ = inl _ |- _ => rewrite Hread in Hdec end;
    congruence.
Qed.

(** X17.  [EditMessage] returns nil exactly when the request went
    through, the response decoded and the server reported success; when
    the server reports failure the error is made of the server's message
    alone, also when that message is empty. *)
Theorem EditMessage_succeeds_iff
    (messageID : string) (m : OutgoingMessage) (response : error + ReadCloser bytes) :
  (fst (messages.EditMessage messageID m response) = None <->
   exists body s,
     response = inr body /\
     messages.Decode zero_SimpleQueryResult Decode_SimpleQueryResult body = (s, None) /\
     Success s = true) /\
  (forall body s,
     response = inr body ->
     messages.Decode zero_SimpleQueryResult Decode_SimpleQueryResult body = (s, None) ->
     Success s = false ->
     fst (messages.EditMessage messageID m response) = Some (Errorf (Result_Message s))).
Proof.
  unfold messages.EditMessage, messages.editMessage.
  destruct response as [err|body]; cbn.
  { split; [split; [discriminate | intros (b & s & H & _); discriminate H]|].
    intros b s H. discriminate H. }
  destruct (messages.Decode zero_SimpleQueryResult Decode_SimpleQueryResult body)
    as [s [err|]] eqn:Hdec; cbn.
  - split; [split; [discriminate|]|].
    + intros (b & s' & Hb & Hd & _). injection Hb as <-. rewrite Hdec in Hd. discriminate Hd.
    + intros b s' Hb Hd. injection Hb as <-. rewrite Hdec in Hd. discriminate Hd.
  - destruct (Success s) eqn:Hs; cbn.
    + split; [split; [intros _; now exists body, s|reflexivity]|].
      intros b s' Hb Hd Hs'. injection Hb as <-. rewrite Hdec in Hd. injection Hd as <-.
      congruence.
    + split; [split; [discriminate|]|].
      * intros (b & s' & Hb & Hd & Hs'). injection Hb as <-. rewrite Hdec in Hd.
        injection Hd as <-. congruence.
      * intros b s' Hb Hd _. injection Hb as <-. rewrite Hdec in Hd. now injection Hd as <-.
Qed.
End MessagesFacts.

(* ===================================================================== *)
(** * Properties of the chat queries                                       *)
(* ===================================================================== *)

Section ChatsFacts.
Context `{K : Consts} `{MC : MoreConsts}.

Lemma Itoa_inj (x y : Z) : Itoa x = Itoa y -> x = y.
Proof.
  unfold Itoa. intro H. apply DecimalZ.to_int_inj.
  assert (forall z, Z.to_int z <> Decimal.Pos Decimal.Nil /\
                    Z.to_int z <> Decimal.Neg Decimal.Nil) as Hnn.
  { intro z. destruct z as [|p|p]; cbn; split; try discriminate.
    - intro E. injection E as E. now apply (DecimalPos.Unsigned.to_uint_nonnil p).
    - intro E. injection E as E. now apply (DecimalPos.Unsigned.to_uint_nonnil p). }
  assert (Some (Z.to_int x) = Some (Z.to_int y)) as E.
  { rewrite <- (NilZero.isi (Z.to_int x)) by apply Hnn.
    rewrite <- (NilZero.isi (Z.to_int y)) by apply Hnn. now rewrite H. }
  now injection E.
Qed.

Lemma occurs_append (c : Ascii.ascii) (s1 s2 : string) :
  occurs c (s1 ++ s2)%string = occurs c s1 || occurs c s2.
Proof. induction s1 as [|a s1 IH]; cbn; [reflexivity|]. now rewrite IH, orb_assoc. Qed.

Lemma string_of_uint_no_comma (d : Decimal.uint) :
  occurs comma (NilEmpty.string_of_uint d) = false.
Proof. induction d; cbn; auto. Qed.

Lemma Itoa_no_comma (z : Z) : occurs comma (Itoa z) = false.
Proof.
  unfold Itoa, NilZero.string_of_int, NilZero.string_of_uint.
  destruct (Z.to_int z) as [d|d]; destruct d; cbn; auto using string_of_uint_no_comma.
Qed.

Lemma Itoa_nonempty (z : Z) : Itoa z <> "".
Proof.
  unfold Itoa, NilZero.string_of_int, NilZero.string_of_uint.
  destruct (Z.to_int z) as [d|d]; destruct d; cbn; discriminate.
Qed.

(** An element of a join: not empty and free of commas. *)
Local Abbreviation element :=
  (fun s : string => s <> EmptyString /\ occurs comma s = false).

(** What follows an element in a join: nothing, or a comma and more. *)
Local Abbreviation tail :=
  (fun r : string => r = EmptyString \/ exists r', r = String comma r').

Lemma split_at_comma (x : string) :
  forall (y r1 r2 : string),
    occurs comma x = false -> occurs comma y = false -> tail r1 -> tail r2 ->
    (x ++ r1 = y ++ r2)%string -> x = y /\ r1 = r2.
Proof.
  induction x as [|a x IH]; intros [|b y] r1 r2 Hx Hy T1 T2 E;
    cbn [append occurs] in E, Hx, Hy.
  - auto.
  - exfalso. destruct T1 as [->|(r' & ->)]; [discriminate|].
    injection E as <- _. apply orb_false_iff in Hy as (Hb & _).
    apply Ascii.eqb_neq in Hb. now apply Hb.
  - exfalso. destruct T2 as [->|(r' & ->)]; [discriminate|].
    injection E as -> _. apply orb_false_iff in Hx as (Ha & _).
    apply Ascii.eqb_neq in Ha. now apply Ha.
  - injection E as -> E. apply orb_false_iff in Hx as (_ & Hx).
    apply orb_false_iff in Hy as (_ & Hy).
    destruct (IH y r1 r2 Hx Hy T1 T2 E) as (-> & ->). auto.
Qed.

Lemma Join_cons (x : string) (xs : list string) :
  Join (x :: xs) "," =
    (x ++ match xs with [] => "" | _ :: _ => String comma (Join xs ",") end)%string.
Proof.
  unfold Join. destruct xs as [|y ys]; cbn [concat]; [|reflexivity].
  induction x; cbn; congruence.
Qed.

(** A list of comma-free, non-empty strings can be read back from its
    join. *)
Lemma Join_inj (l1 : list string) :
  forall l2 : list string,
    Forall element l1 -> Forall element l2 ->
    Join l1 "," = Join l2 "," -> l1 = l2.
Proof.
  induction l1 as [|x xs IH]; intros [|y ys] F1 F2 E.
  - reflexivity.
  - exfalso. rewrite Join_cons in E. inversion F2 as [|? ? (Hy & _) _]; subst.
    destruct y; [now apply Hy | discriminate E].
  - exfalso. rewrite Join_cons in E. inversion F1 as [|? ? (Hx & _) _]; subst.
    destruct x; [now apply Hx | discriminate E].
  - rewrite !Join_cons in E.
    inversion F1 as [|? ? (_ & Hx) F1']; inversion F2 as [|? ? (_ & Hy) F2']; subst.
    apply split_at_comma in E; auto.
    + destruct E as (-> & E). f_equal.
      destruct xs as [|x' xs'], ys as [|y' ys']; try discriminate E; [reflexivity|].
      injection E as E. now apply IH.
    + destruct xs; [now left | right; eauto].
    + destruct ys; [now left | right; eauto].
Qed.

(** X18.  The ids can be read back from the query of
    [GetSpecificChatMembers]: two id lists give the same query only if
    they are the same list.  The query always has the one entry
    [user_ids], whose value is empty exactly for the empty list. *)
Theorem GetSpecificChatMembers_ids_recoverable (ids1 ids2 : list Z) :
  (chats.GetSpecificChatMembers_values ids1 = chats.GetSpecificChatMembers_values ids2
   <-> ids1 = ids2) /\
  exists joined,
    chats.GetSpecificChatMembers_values ids1 = [("user_ids"%string, joined)] /\
    (joined = ""%string <-> ids1 = []).
Proof.
  unfold chats.GetSpecificChatMembers_values.
  assert (forall ids : list Z, Forall element (map Itoa ids)) as Helems.
  { intro ids. apply Forall_forall. intros s Hs. apply in_map_iff in Hs as (z & <- & _).
    split; [apply Itoa_nonempty | apply Itoa_no_comma]. }
  assert (forall l1 l2 : list Z, map Itoa l1 = map Itoa l2 -> l1 = l2) as Hmap.
  { induction l1 as [|a l1 IH]; intros [|b l2] E; try discriminate E; [reflexivity|].
    injection E as Ea E. f_equal; [now apply Itoa_inj | now apply IH]. }
  split; [split|].
  - intro E. injection E as E. apply Hmap. apply Join_inj; auto.
  - now intros ->.
  - eexists. split; [reflexivity|]. split.
    + intro E. destruct ids1 as [|z zs]; [reflexivity|]. exfalso.
      cbn [map] in E. rewrite Join_cons in E.
      pose proof (Itoa_nonempty z) as Hz. destruct (Itoa z); [now apply Hz | discriminate E].
    + now intros ->.
Qed.

(** X19.  The three cursor parameters do not treat a negative marker
    alike: [GetChats] (like [getUpdates]) leaves out every marker that is
    not positive, [GetChatMembers] leaves out the marker 0 only.  So the
    two chat queries coincide exactly for the markers that are not
    negative, and a negative marker is sent by [GetChatMembers] alone. *)
Theorem negative_marker_is_sent_by_GetChatMembers_only (count marker : Z) :
  (chats.GetChats_values count marker = chats.GetChatMembers_values count marker
   <-> 0 <= marker) /\
  (In (paramMarker, Itoa marker) (chats.GetChats_values count marker) -> 0 < marker) /\
  (marker <> 0 -> In (paramMarker, Itoa marker) (chats.GetChatMembers_values count marker)).
Proof.
  unfold chats.GetChats_values, chats.GetChatMembers_values.
  assert (In (paramMarker, Itoa marker)
            (if 0 <? count then [(paramCount, Itoa count)] else []) -> 0 < marker) as Hcount.
  { destruct (0 <? count) eqn:Hc; [|intros []]. apply Z.ltb_lt in Hc.
    intros [H|[]]. injection H as _ H. apply Itoa_inj in H. lia. }
  destruct (0 <? marker) eqn:Hpos; destruct (marker =? 0) eqn:Hzero.
  - apply Z.ltb_lt in Hpos. apply Z.eqb_eq in Hzero. lia.
  - apply Z.ltb_lt in Hpos. repeat split; try lia; auto.
    intros _. apply in_or_app. right. now left.
  - apply Z.ltb_ge in Hpos. apply Z.eqb_eq in Hzero. repeat split; try lia; auto.
    intro H. rewrite app_nil_r in H. auto.
  - apply Z.ltb_ge in Hpos. apply Z.eqb_neq in Hzero. split; [split|split].
    + intro E. apply app_inv_head in E. discriminate E.
    + lia.
    + intro H. rewrite app_nil_r in H. auto.
    + intros _. apply in_or_app. right. now left.
Qed.
End ChatsFacts.

(* ===================================================================== *)
(** * Properties of the constructors                                       *)
(* ===================================================================== *)

Section ConstructorFacts.
Context {bytes fields : Type} `{J : JSON bytes fields} `{K : Consts}
        `{D : Defaults} `{P : Platform}.

(** X20.  What [NewWithConfig] hands to the pipeline.  An [Api] that
    [NewWithConfig] returns has a non-empty token, a poll timeout equal
    to the timeout of its HTTP client, and the default pause; given a
    positive default timeout, its timeout is positive whatever the
    configuration says (a configured number of seconds that is not
    positive, or whose product with [time.Second] is not positive in
    [int64], is replaced by the default), so every poll of the fetch loop
    carries the timeout parameter. *)
Theorem NewWithConfig_builds_a_usable_client (cfg : option Config) (b : Built) :
  NewWithConfig cfg = inr b ->
  client_token (client_of b) <> ""%string /\
  http_Timeout (client_of b) = timeout (api_of b) /\
  pause (api_of b) = defaultPause /\
  (0 < defaultTimeout ->
   0 < timeout (api_of b) /\
   forall cursor,
     In (paramTimeout, Itoa (Z.quot (timeout (api_of b)) Second))
        (updatesValues (pollParams (api_of b) cursor))).
Proof.
  unfold NewWithConfig. destruct cfg as [cfg|]; [|discriminate].
  set (token := if (BotTokenCheckString cfg =? "")%string
                then os_Getenv envToken else BotTokenCheckString cfg).
  destruct (token =? "")%string eqn:Htoken; [discriminate|].
  set (t := wrap64 (wrap64 (GetHttpBotAPITimeOut cfg) * Second)).
  destruct (url_Parse _) as [err|u]; [discriminate|].
  intro H. injection H as <-. cbn.
  assert (0 < defaultTimeout -> 0 < (if t <=? 0 then defaultTimeout else t)) as Hpos.
  { intro Hd. destruct (t <=? 0) eqn:Ht; [exact Hd|]. apply Z.leb_gt in Ht. exact Ht. }
  repeat split; auto.
  - now apply String.eqb_neq.
  - intro cursor. unfold updatesValues, pollParams. cbn.
    apply Z.ltb_lt in Hpos; [|assumption]. rewrite Hpos.
    apply in_or_app. right. apply in_or_app. left. now left.
Qed.

(** X21.  The two constructors agree: for a non-empty token, [New]
    returns what [NewWithConfig] returns for a configuration that holds
    this token and is otherwise empty (no timeout, URL or version, debug
    off, debug chat 0). *)
Theorem New_is_NewWithConfig_on_defaults (token : string) :
  token <> ""%string ->
  New token =
    NewWithConfig (Some {| BotTokenCheckString := token; GetHttpBotAPITimeOut := 0;
                           GetHttpBotAPIUrl := ""; GetHttpBotAPIVersion := "";
                           GetDebugLogMode := false; GetDebugLogChat := 0 |}).
Proof.
  intro Htoken. apply String.eqb_neq in Htoken.
  unfold New, NewWithConfig. cbn. now rewrite !Htoken.
Qed.

(** X22.  Debug sends of a client built by [New] name no recipient:
    [New] sets the debug chat to 0, and [SendErr] then posts the error text
    with an empty query, neither chat nor user.  For a client built by
    [NewWithConfig] the query names the configured debug chat, if that is
    not 0. *)
Theorem debug_sends_of_New_have_no_recipient
    (err : error) (response : error + ReadCloser bytes) :
  (forall token b,
     New token = inr b ->
     requests (snd (@debugs.SendErr bytes fields J K (Debugs_chat b) err response)) = [[]]) /\
  (forall cfg b,
     NewWithConfig (Some cfg) = inr b ->
     requests (snd (@debugs.SendErr bytes fields J K (Debugs_chat b) err response)) =
       [if GetDebugLogChat cfg =? 0 then []
        else [(paramChatID, Itoa (GetDebugLogChat cfg))]]).
Proof.
  assert (forall chat,
            requests (snd (@debugs.SendErr bytes fields J K chat err response)) =
              [if chat =? 0 then [] else [(paramChatID, Itoa chat)]]) as Hreq.
  { intro chat. unfold debugs.SendErr, sendMessage, sendValues. cbn. rewrite app_nil_r.
    destruct response as [e|body]; [reflexivity|].
    destruct (decodeError body) as [e|[code text]]; [now destruct (Close body)|].
    destruct (code =? "")%string; now destruct (Close body). }
  split.
  - intros token b. unfold New. destruct (token =? "")%string; [discriminate|].
    destruct (url_Parse defaultAPIURL); [discriminate|].
    intro H. injection H as <-. cbn. apply Hreq.
  - intros cfg b. unfold NewWithConfig.
    destruct ((if (BotTokenCheckString cfg =? "")%string then _ else _) =? "")%string;
      [discriminate|].
    destruct (url_Parse _); [discriminate|].
    intro H. injection H as <-. cbn. apply Hreq.
Qed.
End ConstructorFacts.

(* ===================================================================== *)
(** * Properties of the keyboard builder                                   *)
(* ===================================================================== *)

Section KeyboardFacts.

Lemma store_length {A : Type} (l : list A) : forall i v, List.length (store l i v) = List.length l.
Proof. induction l as [|x l IH]; intros [|i] v; cbn; auto. Qed.

Lemma store_split {A : Type} (l : list A) :
  forall i x v, nth_error l i = Some x ->
    exists l1 l2, l = l1 ++ x :: l2 /\ store l i v = l1 ++ v :: l2 /\ List.length l1 = i.
Proof.
  induction l as [|y l IH]; intros [|i] x v H; cbn in H; try discriminate.
  - injection H as ->. now exists [], l.
  - destruct (IH i x v H) as (l1 & l2 & -> & E & Hlen).
    exists (y :: l1), l2. cbn. rewrite E, Hlen. auto.
Qed.

Lemma nth_error_store {A : Type} (l : list A) :
  forall i j v, (i < List.length l)%nat ->
    nth_error (store l i v) j = if (j =? i)%nat then Some v else nth_error l j.
Proof.
  induction l as [|y l IH]; intros [|i] [|j] v Hi; cbn in *; try lia; auto.
  apply IH. lia.
Qed.

(** The loop of [Build] on rows that are allocated. *)
Lemma Build_loop_allocated (h : Heap) (k_rows : list nat) :
  forall buttons,
    Forall (fun kr => (kr < List.length (rows h))%nat) k_rows ->
    Build_loop k_rows h buttons = Some (buttons ++ map (fun kr => nth kr (rows h) []) k_rows).
Proof.
  induction k_rows as [|r rest IH]; intros buttons Hall; cbn.
  - now rewrite app_nil_r.
  - inversion Hall as [|? ? Hr Hrest]; subst. unfold Row_Build.
    destruct (nth_error (rows h) r) as [cols|] eqn:Hnth.
    + rewrite (IH _ Hrest), <- app_assoc. cbn.
      now rewrite (nth_error_nth _ _ [] Hnth).
    + apply nth_error_None in Hnth. lia.
Qed.

Lemma separate_keyboard (h : Heap) (k : nat) (k_rows : list nat) :
  separate h -> nth_error (keyboards h) k = Some k_rows ->
  Forall (fun kr => (kr < List.length (rows h))%nat) k_rows /\ NoDup k_rows /\
  forall k' k_rows', k' <> k -> nth_error (keyboards h) k' = Some k_rows' ->
    forall kr, In kr k_rows -> ~ In kr k_rows'.
Proof.
  intros (Hall & Hnodup) Hk.
  destruct (nth_error_split _ _ Hk) as (l1 & l2 & E & Hlen).
  rewrite E, concat_app in Hall, Hnodup. cbn in Hall, Hnodup.
  split; [|split].
  - apply Forall_app in Hall as (_ & Hall). now apply Forall_app in Hall as (Hall & _).
  - apply NoDup_app_remove_l in Hnodup. now apply NoDup_app_remove_r in Hnodup.
  - intros k' k_rows' Hne Hk' kr Hin Hin'.
    rewrite E in Hk'.
    destruct (Nat.lt_ge_cases k' (List.length l1)) as [Hlt|Hge].
    + rewrite nth_error_app1 in Hk' by exact Hlt.
      assert (In kr (List.concat l1)) as Hc
        by (apply in_concat; exists k_rows'; split; [eapply nth_error_In; eauto | exact Hin']).
      apply in_split in Hc as (c1 & c2 & Hc). rewrite Hc, <- app_assoc in Hnodup.
      cbn in Hnodup. apply NoDup_remove_2 in Hnodup. apply Hnodup.
      apply in_or_app. right. apply in_or_app. right. apply in_or_app. now left.
    + rewrite nth_error_app2 in Hk' by exact Hge.
      destruct (k' - List.length l1)%nat as [|n] eqn:Hn; [lia|]. cbn in Hk'.
      assert (In kr (List.concat l2)) as Hc
        by (apply in_concat; exists k_rows'; split; [eapply nth_error_In; eauto | exact Hin']).
      apply NoDup_app_remove_l in Hnodup.
      apply in_split in Hin as (c1 & c2 & ->). rewrite <- !app_assoc in Hnodup.
      cbn in Hnodup. apply NoDup_remove_2 in Hnodup. apply Hnodup.
      apply in_or_app. right. apply in_or_app. now right.
Qed.

Lemma run_call_separate (h h' : Heap) (c : BuilderCall) :
  separate h -> run_call h c = Some h' -> separate h'.
Proof.
  intros (Hall & Hnodup) Hrun. destruct c as [|k|kr b]; cbn in Hrun.
  - injection Hrun as <-. unfold separate. cbn.
    rewrite concat_app. cbn. rewrite app_nil_r. auto.
  - unfold AddRow in Hrun. destruct (nth_error (keyboards h) k) as [k_rows|] eqn:Hk;
      [|discriminate]. cbn in Hrun. injection Hrun as <-.
    destruct (store_split (keyboards h) k (k_rows ++ [List.length (rows h)]) Hk)
      as (l1 & l2 & E & -> & _).
    unfold separate. cbn. rewrite E in Hall, Hnodup.
    rewrite concat_app in *. cbn in *. rewrite length_app. cbn.
    assert (Permutation
              (List.concat l1 ++ (k_rows ++ [List.length (rows h)]) ++ List.concat l2)
              (List.length (rows h) :: List.concat l1 ++ k_rows ++ List.concat l2)) as Hperm.
    { rewrite <- app_assoc. cbn. rewrite app_assoc. symmetry.
      rewrite app_assoc. apply Permutation_middle. }
    split.
    + eapply Permutation_Forall; [symmetry; exact Hperm|].
      constructor; [lia|]. eapply Forall_impl; [|exact Hall]. cbn. intros; lia.
    + eapply Permutation_NoDup; [symmetry; exact Hperm|].
      constructor; [|exact Hnodup].
      intro Hin. rewrite Forall_forall in Hall. apply Hall in Hin. lia.
  - unfold AddButton in Hrun. destruct (nth_error (rows h) kr); [|discriminate].
    cbn in Hrun. injection Hrun as <-. unfold separate. cbn.
    now rewrite store_length.
Qed.

(** Every heap that the builder's functions produce keeps the rows of
    its keyboards separate. *)
Lemma run_separate (program : list BuilderCall) :
  forall h h', separate h -> run program h = Some h' -> separate h'.
Proof.
  induction program as [|c rest IH]; intros h h' Hsep Hrun; cbn in Hrun.
  - now injection Hrun as <-.
  - destruct (run_call h c) as [h1|] eqn:Hc; [|discriminate].
    eapply IH; [|exact Hrun]. eapply run_call_separate; eauto.
Qed.

Lemma empty_Heap_separate : separate empty_Heap.
Proof. split; constructor. Qed.

(** X23.  A button goes into one row of one keyboard.  In every heap
    that a program of builder calls has produced, adding a button through
    a row pointer returns that pointer, and afterwards every keyboard
    builds to what it built before, except that the row in question, in
    the one keyboard that holds it, has the new button at its end: the
    pointer occurs at most once in that keyboard and in no other. *)
Theorem AddButton_changes_one_row
    (program : list BuilderCall) (h h' : Heap) (kr kr' : nat) (b : ButtonInterface) :
  run program empty_Heap = Some h ->
  AddButton kr b h = Some (kr', h') ->
  kr' = kr /\
  forall k k_rows,
    nth_error (keyboards h) k = Some k_rows ->
    Build k h = Some (map (fun r => nth r (rows h) []) k_rows) /\
    Build k h' =
      Some (map (fun r => if (r =? kr)%nat then nth r (rows h) [] ++ [b]
                          else nth r (rows h) []) k_rows) /\
    (~ In kr k_rows -> Build k h' = Build k h) /\
    NoDup k_rows /\
    (In kr k_rows ->
     forall k2 k_rows2, k2 <> k -> nth_error (keyboards h) k2 = Some k_rows2 ->
       Build k2 h' = Build k2 h).
Proof.
  intros Hrun Hadd.
  pose proof (run_separate program empty_Heap_separate Hrun) as Hsep.
  unfold AddButton in Hadd. destruct (nth_error (rows h) kr) as [cols|] eqn:Hkr;
    [|discriminate]. injection Hadd as <- <-. split; [reflexivity|].
  assert (kr < List.length (rows h))%nat as Hlt
    by (apply nth_error_Some; congruence).
  assert (forall rs, Forall (fun r => (r < List.length (rows h))%nat) rs ->
            Build_loop rs {| keyboards := keyboards h;
                             rows := store (rows h) kr (cols ++ [b]) |} [] =
              Some (map (fun r => if (r =? kr)%nat then nth r (rows h) [] ++ [b]
                                  else nth r (rows h) []) rs)) as Hafter.
  { intros rs Hall. rewrite Build_loop_allocated by (cbn; now rewrite store_length).
    cbn. f_equal. apply map_ext_in. intros r Hr.
    rewrite Forall_forall in Hall. specialize (Hall r Hr).
    destruct (nth_error (store (rows h) kr (cols ++ [b])) r) as [v|] eqn:Hv.
    - rewrite (nth_error_nth _ _ [] Hv). rewrite nth_error_store in Hv by exact Hlt.
      destruct (r =? kr)%nat eqn:Hr'.
      + apply Nat.eqb_eq in Hr'. subst r. rewrite (nth_error_nth _ _ [] Hkr). congruence.
      + now rewrite (nth_error_nth _ _ [] Hv).
    - apply nth_error_None in Hv. rewrite store_length in Hv. lia. }
  assert (forall rs, ~ In kr rs ->
            map (fun r => if (r =? kr)%nat then nth r (rows h) [] ++ [b]
                          else nth r (rows h) []) rs =
            map (fun r => nth r (rows h) []) rs) as Hsame.
  { intros rs Hnot. apply map_ext_in. intros r Hr.
    destruct (r =? kr)%nat eqn:E; [|reflexivity].
    apply Nat.eqb_eq in E. subst r. contradiction. }
  intros k k_rows Hk.
  destruct (separate_keyboard k Hsep Hk) as (Hall & Hnodup & Hother).
  unfold Build. cbn [keyboards]. rewrite Hk.
  rewrite (@Build_loop_allocated h k_rows [] Hall), (Hafter _ Hall). cbn [app].
  repeat split; auto.
  - intro Hnot. now rewrite (Hsame _ Hnot).
  - intros Hin k2 k_rows2 Hne Hk2. rewrite Hk2.
    destruct (separate_keyboard k2 Hsep Hk2) as (Hall2 & _ & _).
    rewrite (@Build_loop_allocated h k_rows2 [] Hall2), (Hafter _ Hall2). cbn [app].
    rewrite Hsame; [reflexivity|]. exact (Hother k2 k_rows2 Hne Hk2 kr Hin).
Qed.

(** X24.  A new row is nobody else's.  In every heap that a program of
    builder calls has produced, [AddRow] on a keyboard returns a pointer
    that no keyboard holds yet; afterwards this keyboard builds to one
    more row, an empty one at the end, and every other keyboard builds to
    what it built before. *)
Theorem AddRow_appends_a_fresh_row
    (program : list BuilderCall) (h h' : Heap) (k kr : nat) :
  run program empty_Heap = Some h ->
  AddRow k h = Some (kr, h') ->
  ~ In kr (List.concat (keyboards h)) /\
  (exists built, Build k h = Some built /\ Build k h' = Some (built ++ [[]])) /\
  forall k2, k2 <> k -> Build k2 h' = Build k2 h.
Proof.
  intros Hrun Hadd.
  pose proof (run_separate program empty_Heap_separate Hrun) as Hsep.
  assert (separate h') as Hsep'.
  { apply (@run_call_separate h h' (call_AddRow k) Hsep). cbn. now rewrite Hadd. }
  unfold AddRow in Hadd. destruct (nth_error (keyboards h) k) as [k_rows|] eqn:Hk;
    [|discriminate]. injection Hadd as <- <-.
  assert (k < List.length (keyboards h))%nat as Hlt by (apply nth_error_Some; congruence).
  destruct (separate_keyboard k Hsep Hk) as (Hall & _ & _).
  assert (forall rs, Forall (fun r => (r < List.length (rows h))%nat) rs ->
            map (fun r => nth r (rows h ++ [[]]) []) rs =
            map (fun r => nth r (rows h) []) rs) as Hold.
  { intros rs Hrs. apply map_ext_in. intros r Hr. rewrite Forall_forall in Hrs.
    now rewrite app_nth1 by auto. }
  split; [|split].
  - intro Hin. destruct Hsep as (Hbound & _). rewrite Forall_forall in Hbound.
    apply Hbound in Hin. lia.
  - exists (map (fun r => nth r (rows h) []) k_rows). unfold Build. cbn [keyboards].
    rewrite Hk, nth_error_store, Nat.eqb_refl by exact Hlt.
    rewrite (@Build_loop_allocated h k_rows [] Hall). split; [reflexivity|].
    rewrite Build_loop_allocated.
    + cbn [app rows]. rewrite map_app, (Hold _ Hall). cbn.
      now rewrite nth_middle.
    + cbn [rows]. rewrite length_app. cbn. apply Forall_app. split.
      * eapply Forall_impl; [|exact Hall]. cbn. intros; lia.
      * constructor; [lia | constructor].
  - intros k2 Hne. unfold Build. cbn [keyboards].
    rewrite nth_error_store by exact Hlt.
    destruct (k2 =? k)%nat eqn:E; [apply Nat.eqb_eq in E; contradiction|].
    destruct (nth_error (keyboards h) k2) as [k_rows2|] eqn:Hk2; [|reflexivity].
    destruct (separate_keyboard k2 Hsep Hk2) as (Hall2 & _ & _).
    rewrite (@Build_loop_allocated h k_rows2 [] Hall2).
    rewrite Build_loop_allocated.
    + cbn [app rows]. now rewrite (Hold _ Hall2).
    + cbn [rows]. rewrite length_app. cbn.
      eapply Forall_impl; [|exact Hall2]. cbn. intros; lia.
Qed.
End KeyboardFacts.

(* ===================================================================== *)
(** * Further concrete runs                                                *)
(* ===================================================================== *)

Section FurtherRuns.
Import Wire Examples Scenarios.

(** X1 against a transport that refuses two connections and then
    delivers a page. *)
Lemma getUpdatesWithRetry_succeeds_after_failures_witness :
  fst (getUpdatesWithRetry None (recovering 2 answer5)) = (Some page5, None) /\
  List.length (requests (snd (getUpdatesWithRetry None (recovering 2 answer5)))) = 3%nat /\
  waits (snd (getUpdatesWithRetry None (recovering 2 answer5))) = [1 * Second; 2 * Second].
Proof.
  apply (@getUpdatesWithRetry_succeeds_after_failures payload members json consts None
           (recovering 2 answer5) (fun _ => refused) 2 (Some page5)).
  - cbn. lia.
  - intros [|[|j]] Hj; [repeat split | repeat split | lia].
  - reflexivity.
Defined.

(** X2 when the context is cancelled during the second attempt, and
    when it is cancelled during the wait after the second attempt. *)
Lemma getUpdatesWithRetry_stops_on_cancellation_witness :
  (fst (getUpdatesWithRetry None (cancelled_in 1)) =
     (None, Some (Sentinel_error context_Canceled)) /\
   List.length (requests (snd (getUpdatesWithRetry None (cancelled_in 1)))) = 2%nat /\
   waits (snd (getUpdatesWithRetry None (cancelled_in 1))) = [1 * Second]) /\
  (fst (getUpdatesWithRetry None (cancelled_after 1)) =
     (None, Some (Sentinel_error context_Canceled)) /\
   List.length (requests (snd (getUpdatesWithRetry None (cancelled_after 1)))) = 2%nat /\
   waits (snd (getUpdatesWithRetry None (cancelled_after 1))) = [1 * Second]).
Proof.
  split.
  - pose proof (@getUpdatesWithRetry_stops_on_cancellation payload members json consts
                  None (cancelled_in 1) (fun _ => refused) 1 context_Canceled) as H.
    cbn zeta in H. destruct H as (H & _).
    + intros [|j] Hj; [repeat split | lia].
    + apply (H (Errorf_w "Get updates" (Sentinel_error context_Canceled)));
        first [reflexivity | cbn; lia].
  - pose proof (@getUpdatesWithRetry_stops_on_cancellation payload members json consts
                  None (cancelled_after 1) (fun _ => refused) 1 context_Canceled) as H.
    cbn zeta in H. destruct H as (_ & H).
    + intros [|j] Hj; [repeat split | lia].
    + apply H; first [reflexivity | cbn; lia | now repeat split].
Defined.

(** X3 against a transport that always refuses the connection: four
    waits, 15 seconds in all. *)
Lemma getUpdatesWithRetry_total_backoff_witness :
  (List.length (waits (snd (getUpdatesWithRetry None (always unreachable)))) <= 5 - 1)%nat /\
  List.length (waits (snd (getUpdatesWithRetry None (always unreachable)))) =
    (List.length (requests (snd (getUpdatesWithRetry None (always unreachable)))) - 1)%nat /\
  Forall (fun d => 0 < d) (waits (snd (getUpdatesWithRetry None (always unreachable)))) /\
  total (waits (snd (getUpdatesWithRetry None (always unreachable)))) <=
    (2 ^ Z.of_nat (5 - 1) - 1) * Second.
Proof.
  apply (@getUpdatesWithRetry_total_backoff payload members json consts None
           (always unreachable)).
  cbn. lia.
Defined.

(** X4 on a fresh loop whose first poll times out. *)
Lemma timeout_round_is_quiet_witness :
  step api start (round poll_timeout) =
    {| phase := Idle; marker := 0; trace := [first_poll] |}.
Proof.
  apply (@timeout_round_is_quiet payload members json consts api start (round poll_timeout)
           (Errorf_w "Get updates" (TimeoutError "no update within the poll timeout")));
    first [reflexivity | now left | cbn; lia].
Defined.

(** X5 against a transport that always refuses the connection. *)
Lemma failed_round_ends_the_tick_witness :
  exists tr,
    step api start (round unreachable) =
      {| phase := Idle; marker := 0;
         trace := tr ++ [Ev_log (Log_failed_to_get_updates
                                   (Errorf_w "failed after 5 attempts" refused))] |} /\
    sent tr = [] /\ List.length (requests tr) = 5%nat.
Proof.
  destruct (@failed_round_ends_the_tick payload members json consts api start
              (round unreachable) (fun _ => refused))
    as (tr & Hstep & Hsent & Hlen).
  - now left.
  - reflexivity.
  - cbn. lia.
  - intros i _. repeat split.
  - intros i _. reflexivity.
  - exists tr. repeat split; [exact Hstep | exact Hsent | exact Hlen].
Defined.

(** X6 when the transport reports an expired deadline of its own
    while the loop's context is live. *)
Lemma nil_page_panics_witness :
  fst (getUpdates None (Some (pollParams api 0)) (aborted context_DeadlineExceeded))
    = (None, None) /\
  fst (getUpdatesWithRetry (Some (pollParams api 0))
         (always (aborted context_DeadlineExceeded))) = (None, None) /\
  step api start (round (aborted context_DeadlineExceeded)) =
    {| phase := Panicked; marker := 0; trace := [first_poll; Ev_close] |}.
Proof.
  apply (@nil_page_panics payload members json consts api start
           (round (aborted context_DeadlineExceeded))
           (Errorf_w "Get updates" (Sentinel_error context_DeadlineExceeded)));
    first [reflexivity | now left | cbn; lia].
Defined.

(** X8 on the page with an undecodable item between two valid ones. *)
Lemma page_is_delivered_in_order_witness :
  step api start (round answer_mixed) =
    {| phase := Draining; marker := 9;
       trace := [first_poll; Ev_send started; Ev_send added] |}.
Proof.
  destruct (@page_is_delivered_in_order payload members json consts api start
              (round answer_mixed) mixed_page)
    as (fetched & Hfetch & Hstep & _).
  - now left.
  - repeat split. eexists. reflexivity.
  - rewrite Hstep. vm_compute in Hfetch. injection Hfetch as <-. reflexivity.
Defined.

(** X9 on the same page, cancelled after the first send. *)
Lemma cancelled_page_sends_a_prefix_witness :
  step api start (cut_round answer_mixed 1) =
    {| phase := Returned; marker := 0;
       trace := [first_poll; Ev_send started; Ev_close] |}.
Proof.
  apply (@cancelled_page_sends_a_prefix payload members json consts api start
           (cut_round answer_mixed 1) mixed_page [first_poll] 1);
    first [reflexivity | now left | cbn; lia].
Defined.

(** X12 on an empty queue of capacity 1. *)
Lemma GetHandler_respects_the_queue_witness :
  exists code text updates',
    GetHandler api (queue []) {| Method := "POST"; RequestBody := inr bot_started |} =
      Response code text updates' /\
    (List.length (buffer updates') <= 1)%nat /\
    In code [200; 400; 405; 503].
Proof.
  destruct (@GetHandler_respects_the_queue payload members json api (queue [])
              {| Method := "POST"; RequestBody := inr bot_started |})
    as (code & text & updates' & Hserved & Hcode & Hcap & _ & Hlen & _).
  - reflexivity.
  - cbn. lia.
  - exists code, text, updates'. rewrite Hcap in Hlen. auto.
Defined.

(** X20 on a configuration whose timeout overflows: the client gets the
    default timeout. *)
Lemma NewWithConfig_builds_a_usable_client_witness :
  NewWithConfig (Some hurried) = inr built_hurried /\
  0 < timeout (api_of built_hurried) /\
  In ("timeout"%string, "30"%string)
     (updatesValues (pollParams (api_of built_hurried) 0)).
Proof.
  destruct (@NewWithConfig_builds_a_usable_client consts defaults platform
              (Some hurried) built_hurried eq_refl)
    as (_ & _ & _ & Hpolls).
  destruct (Hpolls eq_refl) as (Hpos & Hin).
  split; [reflexivity|]. split; [exact Hpos | exact (Hin 0)].
Defined.

(** X21 on a token. *)
Lemma New_is_NewWithConfig_on_defaults_witness :
  New "t0k3n" =
    NewWithConfig (Some {| BotTokenCheckString := "t0k3n"; GetHttpBotAPITimeOut := 0;
                           GetHttpBotAPIUrl := ""; GetHttpBotAPIVersion := "";
                           GetDebugLogMode := false; GetDebugLogChat := 0 |}).
Proof.
  apply (@New_is_NewWithConfig_on_defaults defaults platform "t0k3n"). discriminate.
Defined.

(** X23 on two keyboards: a button added to row 1 shows in the first
    keyboard only. *)
Lemma AddButton_changes_one_row_witness :
  run two_keyboards empty_Heap = Some two_keyboards_heap /\
  exists h',
    AddButton 1 no two_keyboards_heap = Some (1%nat, h') /\
    Build 0 h' = Some [[yes]; [no]] /\
    Build 1 h' = Some [[]].
Proof.
  split; [reflexivity|]. eexists. split; [reflexivity|].
  destruct (@AddButton_changes_one_row two_keyboards two_keyboards_heap _ 1 1 no
              eq_refl eq_refl) as (_ & H).
  destruct (H 0%nat [0; 1]%nat eq_refl) as (_ & H0 & _).
  destruct (H 1%nat [2]%nat eq_refl) as (_ & H1 & _).
  split; [exact H0 | exact H1].
Defined.

(** X24 on the same heap: a row added to the second keyboard. *)
Lemma AddRow_appends_a_fresh_row_witness :
  exists h',
    AddRow 1 two_keyboards_heap = Some (3%nat, h') /\
    Build 1 h' = Some [[]; []] /\
    Build 0 h' = Some [[yes]; []].
Proof.
  eexists. split; [reflexivity|].
  destruct (@AddRow_appends_a_fresh_row two_keyboards two_keyboards_heap _ 1 3
              eq_refl eq_refl) as (_ & (built & Hbefore & Hafter) & Hothers).
  split.
  - rewrite Hafter. cbn in Hbefore. now injection Hbefore as <-.
  - now rewrite (Hothers 0%nat ltac:(discriminate)).
Defined.

(** X10 on a page cancelled after its first send. *)
Lemma loop_ends_only_on_cancellation_witness :
  exists r,
    In r [cut_round answer_mixed 1] /\
    (select_Done r = true \/ exists n, sends r = Some n).
Proof.
  apply (proj1 (@loop_ends_only_on_cancellation payload members json consts api
                  [cut_round answer_mixed 1])).
  reflexivity.
Defined.
End FurtherRuns.
